(** * SkySphere: the sky projection and transformation engine

    A shallow embedding of [src/SkySphere.js].

    JavaScript numbers are read as real numbers ([R]): every statement below
    is about exact real arithmetic, with [Math.sin], [Math.cos] and [Math.PI]
    read as [sin], [cos] and [PI].  Division is only reasoned about where the
    divisor is known to be non-zero.

    Sky points are JavaScript objects that the collections, the closures of the
    centering animation and the callers of [addCustomObject] all share by
    reference.  They live in a heap (a list, a reference being an index) and
    the collections hold references. *)

From Stdlib Require Import Reals Lra Lia String.
From stdpp Require Import base option list.

Open Scope R_scope.

(** ** Coordinate conversion *)

Definition dec2rad (dec : R) : R := (dec + 90) * 2 * PI / 360.

Definition ra2rad (ra : R) : R := ra * 2 * PI / 24.

(** ** JavaScript values carried as payload *)

#[warnings="-register-all"]
Inductive JsVal : Type :=
| JUndefined
| JNull
| JBool (b : bool)
| JNum (r : R)
| JStr (s : string)
| JObj (props : list (string * JsVal)).

(** [!== undefined] *)
Definition isDefined (v : JsVal) : bool :=
  match v with JUndefined => false | _ => true end.

Fixpoint ownProp (k : string) (props : list (string * JsVal)) : JsVal :=
  match props with
  | [] => JUndefined
  | (k', v) :: rest => if String.eqb k k' then v else ownProp k rest
  end.

(** The outcome of an expression that may throw. *)
Inductive Completion (A : Type) : Type :=
| Normal (a : A)
| TypeError.
Arguments Normal {A} a.
Arguments TypeError {A}.

(** [v.k]: reading a property of [undefined] or [null] throws; a primitive has
    no property of its own. *)
Definition getProp (v : JsVal) (k : string) : Completion JsVal :=
  match v with
  | JUndefined | JNull => TypeError
  | JObj props => Normal (ownProp k props)
  | _ => Normal JUndefined
  end.

(** ** Data model *)

Module SkyPoint.
(** [data = None]: the object has no [data] property. *)
Record t : Type := mk { x : R; y : R; z : R; data : option JsVal }.

(** [skyPoint.data] *)
Definition getData (p : t) : JsVal := default JUndefined (data p).
End SkyPoint.

(** A reference to a sky point object: its index in the heap. *)
Abbreviation ref := nat (only parsing).

Record StarLine : Type := mkStarLine { skyPoint1 : ref; skyPoint2 : ref }.

(** The catalog module [constellations]: lines [l] as pairs of indices into
    the stars [s], each star a pair of angles. *)
Module Constellations.
Record t : Type := mk { l : list (nat * nat); s : list (R * R) }.
End Constellations.

Module Options.
(** [None]: the option is not given.  [customOnClick] records whether a
    callback is given. *)
Record t : Type := mk {
  width : option R;
  height : option R;
  initialRadius : option R;
  customOnClick : bool
}.
End Options.

(** The own properties of an instance. *)
Module Sphere.
Record t : Type := mk {
  options : Options.t;
  containerWidth : R;
  containerHeight : R;
  radius : R;
  initialRadius : R;
  zoomFactor : R;
  isMoving : bool
}.

Definition setRadius (r : R) (this : t) : t :=
  mk (options this) (containerWidth this) (containerHeight this) r
     (initialRadius this) (zoomFactor this) (isMoving this).

Definition setZoomFactor (f : R) (this : t) : t :=
  mk (options this) (containerWidth this) (containerHeight this) (radius this)
     (initialRadius this) f (isMoving this).

Definition setIsMoving (b : bool) (this : t) : t :=
  mk (options this) (containerWidth this) (containerHeight this) (radius this)
     (initialRadius this) (zoomFactor this) b.

End Sphere.

(** The sky point objects and the three arrays of [SkySphere.prototype].
    [init] and [addCustomObject] only ever [push] onto [this.starLines],
    [this.starPoints] and [this.objectPoints]; no instance is given a property
    of its own under these names, so each lookup resolves to the one array of
    the prototype, whichever the instance. *)
Record Store : Type := mkStore {
  heap : list SkyPoint.t;
  starLines : list StarLine;
  starPoints : list ref;
  objectPoints : list ref
}.

(** The store when the module has been loaded and no instance built. *)
Definition emptyStore : Store := mkStore [] [] [] [].

(** Allocating a new object. *)
Definition alloc (p : SkyPoint.t) (h : list SkyPoint.t) : ref * list SkyPoint.t :=
  (length h, h ++ [p]).

(** ** Sky point projector *)

Definition generateSkyPoint (this : Sphere.t) (ra dec : R) (data : JsVal)
  : SkyPoint.t :=
  SkyPoint.mk
    (Sphere.radius this * sin dec * cos ra + Sphere.containerWidth this / 2)
    (- Sphere.radius this * sin dec * sin ra + Sphere.containerHeight this / 2)
    (Sphere.radius this * cos dec)
    (if isDefined data then Some data else None).

(** ** Comparisons and defaults of JavaScript numbers *)

Definition Rlt_b (a b : R) : bool := if Rlt_dec a b then true else false.
Definition Rge_b (a b : R) : bool := if Rge_dec a b then true else false.
Definition Req_b (a b : R) : bool := if Req_dec_T a b then true else false.

(** [v || d] on an optional number: [undefined] and [0] are falsy. *)
Definition orElse (v : option R) (d : R) : R :=
  match v with
  | Some r => if Req_b r 0 then d else r
  | None => d
  end.

(** ** Construction *)

(** The assignments of [init] to the instance; [zoomFactor] and [isMoving]
    read [1] and [false] from the prototype until the instance is assigned
    its own. *)
Definition initSphere (options : Options.t) : Sphere.t :=
  let containerWidth := orElse (Options.width options) 400 in
  let containerHeight := orElse (Options.height options) containerWidth in
  let radius :=
    orElse (Options.initialRadius options)
           (Rmin containerWidth containerHeight * (45 / 100)) in
  Sphere.mk options containerWidth containerHeight radius radius 1 false.

(** The first loop of [init].  [stars[i]] is [undefined] for an index outside
    the array and [star[0]] then throws. *)
Fixpoint generateStarLines (this : Sphere.t) (stars : list (R * R))
    (constellationLines : list (nat * nat)) (st : Store) : option Store :=
  match constellationLines with
  | [] => Some st
  | (i1, i2) :: rest =>
      match stars !! i1, stars !! i2 with
      | Some star1, Some star2 =>
          let '(r1, h1) :=
            alloc (generateSkyPoint this (fst star1) (snd star1) JUndefined) (heap st) in
          let '(r2, h2) :=
            alloc (generateSkyPoint this (fst star2) (snd star2) JUndefined) h1 in
          generateStarLines this stars rest
            (mkStore h2 (starLines st ++ [mkStarLine r1 r2])
                     (starPoints st) (objectPoints st))
      | _, _ => None
      end
  end.

(** The second loop of [init]. *)
Fixpoint generateStarPoints (this : Sphere.t) (stars : list (R * R))
    (st : Store) : Store :=
  match stars with
  | [] => st
  | star :: rest =>
      let '(r, h) :=
        alloc (generateSkyPoint this (fst star) (snd star) JUndefined) (heap st) in
      generateStarPoints this rest
        (mkStore h (starLines st) (starPoints st ++ [r]) (objectPoints st))
  end.

(** [new SkySphere(elementId, options)]: the new instance and the store after
    [init].  The canvas, the listeners and the registry [instances] are not
    part of the model. *)
Definition SkySphere (constellations : Constellations.t) (options : Options.t)
    (st : Store) : option (Sphere.t * Store) :=
  let this := initSphere options in
  st1 ← generateStarLines this (Constellations.s constellations)
                          (Constellations.l constellations) st;
  Some (this, generateStarPoints this (Constellations.s constellations) st1).

(** ** Custom objects *)

Definition addCustomObject (ra dec : R) (data : JsVal) (this : Sphere.t)
    (st : Store) : ref * Store :=
  let skyPoint := generateSkyPoint this (ra2rad ra) (dec2rad dec) data in
  let '(r, h) := alloc skyPoint (heap st) in
  (r, mkStore h (starLines st) (starPoints st) (objectPoints st ++ [r])).

(** ** Transform engine *)

(** The references [applyTransform] visits, in the order it visits them. *)
Definition trackedRefs (st : Store) : list ref :=
  flat_map (fun starLine => [skyPoint1 starLine; skyPoint2 starLine]) (starLines st)
  ++ starPoints st ++ objectPoints st.

Definition applyTransform (transform : SkyPoint.t -> SkyPoint.t) (st : Store)
  : Store :=
  let h1 :=
    fold_left
      (fun h starLine =>
         alter transform (skyPoint2 starLine) (alter transform (skyPoint1 starLine) h))
      (starLines st) (heap st) in
  let h2 := fold_left (fun h r => alter transform r h) (starPoints st) h1 in
  let h3 := fold_left (fun h r => alter transform r h) (objectPoints st) h2 in
  mkStore h3 (starLines st) (starPoints st) (objectPoints st).

(** ** Rotation *)

(** The closure [rotateXY] passes to [applyTransform].  The three assignments
    read the saved [x] and [y] and the [z] of the point, which is assigned
    last. *)
Definition rotatePoint (centerX centerY dy dx : R) (skyPoint : SkyPoint.t)
  : SkyPoint.t :=
  let sindx := sin dx in
  let cosdx := cos dx in
  let sindy := sin dy in
  let cosdy := cos dy in
  let my1 := sindx * sindy in
  let my3 := sindx * cosdy in
  let mz1 := cosdx * sindy in
  let mz3 := cosdx * cosdy in
  let x := SkyPoint.x skyPoint - centerX in
  let y := - SkyPoint.y skyPoint + centerY in
  SkyPoint.mk
    (x * cosdy + SkyPoint.z skyPoint * sindy + centerX)
    (- x * my1 - y * cosdx + SkyPoint.z skyPoint * my3 + centerY)
    (- x * mz1 + y * sindx + SkyPoint.z skyPoint * mz3)
    (SkyPoint.data skyPoint).

Definition rotateXY (dy dx : R) (this : Sphere.t) (st : Store) : Store :=
  let centerX := Sphere.containerWidth this / 2 in
  let centerY := Sphere.containerHeight this / 2 in
  applyTransform (rotatePoint centerX centerY dy dx) st.

(** ** Zoom *)

Definition zoomPoint (centerX centerY zoomFactor : R) (skyPoint : SkyPoint.t)
  : SkyPoint.t :=
  SkyPoint.mk
    (zoomFactor * (SkyPoint.x skyPoint - centerX) + centerX)
    (zoomFactor * (SkyPoint.y skyPoint - centerY) + centerY)
    (zoomFactor * SkyPoint.z skyPoint)
    (SkyPoint.data skyPoint).

(** [self.zoomFactor] is assigned inside the closure, hence only when a point
    is visited.  The closing [drawSky] draws and leaves the state alone. *)
Definition zoom (zoomFactor : R) (this : Sphere.t) (st : Store)
  : Sphere.t * Store :=
  let this1 := Sphere.setRadius (Sphere.radius this * zoomFactor) this in
  let centerX := Sphere.containerWidth this1 / 2 in
  let centerY := Sphere.containerHeight this1 / 2 in
  let st' := applyTransform (zoomPoint centerX centerY zoomFactor) st in
  let this2 :=
    match trackedRefs st with
    | [] => this1
    | _ :: _ => Sphere.setZoomFactor zoomFactor this1
    end in
  (this2, st').

Definition absoluteZoom (zoomFactor : R) (this : Sphere.t) (st : Store)
  : Sphere.t * Store :=
  zoom (Sphere.initialRadius this * zoomFactor / Sphere.radius this) this st.

(** ** Hit test *)

(** The sensitive area around a sky point, from [supportTouch]. *)
Definition area (supportTouch : bool) : R := if supportTouch then 15 else 6.

(** The positions [startMove] and [onMove] record for the closure. *)
Record Drag : Type := mkDrag {
  startX : R; startY : R;
  prevX : R; prevY : R;
  clickX : R;   (* [x]: the start position relative to the canvas *)
  clickY : R    (* [y] *)
}.

(** The loop of [stopMove] over [self.objectPoints].  [Normal (Some v)]:
    [customOnClick] was called on [v] and the handler returned;
    [Normal None]: the loop ran out; [TypeError]: reading the property
    threw.  A reference always is to an object; a missing one would throw as
    [undefined.x] does. *)
Fixpoint hitTest (area x y : R) (h : list SkyPoint.t) (objectPoints : list ref)
  : Completion (option JsVal) :=
  match objectPoints with
  | [] => Normal None
  | r :: rest =>
      match h !! r with
      | None => TypeError
      | Some skyPoint =>
          if Rlt_b (Rabs (SkyPoint.x skyPoint - x)) area
             && Rlt_b (Rabs (SkyPoint.y skyPoint - y)) area
             && Rge_b (SkyPoint.z skyPoint) 0
          then
            match getProp (SkyPoint.getData skyPoint) "clickData" with
            | Normal clickData => Normal (Some clickData)
            | TypeError => TypeError
            end
          else hitTest area x y h rest
      end
  end.

Definition stopMove (area : R) (d : Drag) (this : Sphere.t) (st : Store)
  : Sphere.t * Completion (option JsVal) :=
  let this' := Sphere.setIsMoving false this in
  if Req_b (prevX d) (startX d) && Req_b (prevY d) (startY d)
     && Options.customOnClick (Sphere.options this)
  then (this', hitTest area (clickX d) (clickY d) (heap st) (objectPoints st))
  else (this', Normal None).

(** ** Centering animation *)

(** The variables of [centerSkyPoint] its two timer callbacks close over. *)
Record Centering : Type := mkCentering {
  skyPoint : ref;
  centerX : R;
  centerY : R;
  dx : R;
  dy : R
}.

(** Which callback a pending timer is to run. *)
Inductive Timer : Type := CenteringXTimeout | CenteringYTimeout.

Record Anim : Type := mkAnim {
  sphere : Sphere.t;
  store : Store;
  pending : option Timer
}.

(** The two timer callbacks.  A reference always is to an object, so the
    first case of the lookup does not arise. *)
Definition moveYUntilCenter (c : Centering) (a : Anim) : Anim :=
  match heap (store a) !! skyPoint c with
  | None => a
  | Some p =>
      let y := - SkyPoint.y p + centerY c in
      if negb (Req_b y 0) && (Rlt_b 0 (dy c) && Rlt_b y 0)
         || Rlt_b (dy c) 0 && Rlt_b 0 y
      then mkAnim (sphere a) (rotateXY 0 (- dy c) (sphere a) (store a))
                  (Some CenteringYTimeout)
      else mkAnim (Sphere.setIsMoving false (sphere a)) (store a) None
  end.

Definition moveXUntilCenter (c : Centering) (a : Anim) : Anim :=
  match heap (store a) !! skyPoint c with
  | None => a
  | Some p =>
      let x := SkyPoint.x p - centerX c in
      if negb (Req_b x 0) && (Rlt_b 0 (dx c) && Rlt_b x 0)
         || Rlt_b (dx c) 0 && Rlt_b 0 x
      then mkAnim (sphere a) (rotateXY (dx c) 0 (sphere a) (store a))
                  (Some CenteringXTimeout)
      else moveYUntilCenter c a
  end.

(** [centerSkyPoint(skyPoint)] up to its return: pending timers are cleared,
    the closure is built, [isMoving] is set and [moveXUntilCenter] runs once.
    [None] when the reference is to no object. *)
Definition centerSkyPoint (this : Sphere.t) (st : Store) (skyPoint : ref)
  : option (Centering * Anim) :=
  p ← heap st !! skyPoint;
  let centerX := Sphere.containerWidth this / 2 in
  let centerY := Sphere.containerHeight this / 2 in
  let dx := if Rlt_b (SkyPoint.x p) centerX then 5 / 100 else - (5 / 100) in
  let dy := if Rlt_b centerY (SkyPoint.y p) then 5 / 100 else - (5 / 100) in
  let c := mkCentering skyPoint centerX centerY dx dy in
  Some (c, moveXUntilCenter c (mkAnim (Sphere.setIsMoving true this) st None)).

(** The pending timer fires, 30 ms later. *)
Definition tick (c : Centering) (a : Anim) : Anim :=
  match pending a with
  | Some CenteringXTimeout => moveXUntilCenter c a
  | Some CenteringYTimeout => moveYUntilCenter c a
  | None => a
  end.

(** ** The formula of the specification for the rotation (§4.4), as written
    there, to be compared with [rotatePoint]. *)
Definition specRotatePoint (centerX centerY dPitch dYaw : R) (p : SkyPoint.t)
  : SkyPoint.t :=
  let sx := sin dYaw in
  let cx := cos dYaw in
  let sy := sin dPitch in
  let cy := cos dPitch in
  let x' := SkyPoint.x p - centerX in
  let y' := - SkyPoint.y p + centerY in
  SkyPoint.mk
    (x' * cx + SkyPoint.z p * sx + centerX)
    (- x' * sx * sy - y' * cx + SkyPoint.z p * sx * cx + centerY)
    (- x' * sx * cy + y' * sy + SkyPoint.z p * cx * cy)
    (SkyPoint.data p).

(** The squared distance of a point to the viewport center. *)
Definition normSq (centerX centerY : R) (p : SkyPoint.t) : R :=
  (SkyPoint.x p - centerX) ^ 2 + (SkyPoint.y p - centerY) ^ 2 + SkyPoint.z p ^ 2.

(** A sequence of [rotateXY(dy, dx)] calls on one instance. *)
Definition rotateMany (calls : list (R * R)) (this : Sphere.t) (st : Store)
  : Store :=
  fold_left (fun st call => rotateXY (fst call) (snd call) this st) calls st.

(** How often [applyTransform] visits a reference. *)
Definition visits (st : Store) (r : ref) : nat :=
  count_occ Nat.eq_dec (trackedRefs st) r.

(** No object is held twice by the collections, and every reference they
    hold is to an object of the heap. *)
Definition wfStore (st : Store) : Prop :=
  forall r : ref,
    (visits st r <= 1)%nat
    /\ ((length (heap st) <= r)%nat -> visits st r = 0%nat).




(** [this.starLines], [this.starPoints] and [this.objectPoints]: the
    instance has no such property of its own and the lookup ends on the
    prototype. *)
Definition lookupStarLines (this : Sphere.t) (st : Store) : list StarLine :=
  starLines st.
Definition lookupStarPoints (this : Sphere.t) (st : Store) : list ref :=
  starPoints st.
Definition lookupObjectPoints (this : Sphere.t) (st : Store) : list ref :=
  objectPoints st.

(** The test of [stopMove] on one point. *)
Definition hits (area x y : R) (p : SkyPoint.t) : Prop :=
  Rabs (SkyPoint.x p - x) < area
  /\ Rabs (SkyPoint.y p - y) < area
  /\ SkyPoint.z p >= 0.

Definition misses (area x y : R) (h : list SkyPoint.t) (r : ref) : Prop :=
  exists p, h !! r = Some p /\ ~ hits area x y p.


(** The turn of the plane one step of a phase makes, on the coordinate that
    is being centred and [z]. *)
Definition turn (d : R) (q : R * R) : R * R :=
  (fst q * cos d + snd q * sin d, - fst q * sin d + snd q * cos d).

(** The test of the two timer callbacks, on the step [d] and the offset [u]
    of the coordinate from the center. *)
Definition keepMoving (d u : R) : bool :=
  negb (Req_b u 0) && (Rlt_b 0 d && Rlt_b u 0) || Rlt_b d 0 && Rlt_b 0 u.

(** The step [centerSkyPoint] chooses for an offset [u]. *)
Definition direction (u : R) : R := if Rlt_b u 0 then 5 / 100 else - (5 / 100).

(** ** Resizing *)

(** The closure [setContainerSize] passes to [applyTransform]. *)
Definition translatePoint (offsetX offsetY : R) (skyPoint : SkyPoint.t)
  : SkyPoint.t :=
  SkyPoint.mk (SkyPoint.x skyPoint + offsetX) (SkyPoint.y skyPoint + offsetY)
              (SkyPoint.z skyPoint) (SkyPoint.data skyPoint).

(** [resize] is read for its truth value; [paddingPercentage] is [None] when
    the argument is not given. *)
Definition setContainerSize (width height : R) (resize : bool)
    (paddingPercentage : option R) (this : Sphere.t) (st : Store)
  : Sphere.t * Store :=
  let offsetX := (width - Sphere.containerWidth this) / 2 in
  let offsetY := (height - Sphere.containerHeight this) / 2 in
  let this1 :=
    Sphere.mk (Sphere.options this) width height (Sphere.radius this)
              (Sphere.initialRadius this) (Sphere.zoomFactor this)
              (Sphere.isMoving this) in
  let st1 := applyTransform (translatePoint offsetX offsetY) st in
  if resize
  then zoom (Rmin width height * orElse paddingPercentage (9 / 10)
             / (2 * Sphere.radius this1)) this1 st1
  else (this1, st1).

(** ** Dragging *)

(** [startMove], for a pointer at [(clientX, clientY)] over a canvas whose
    bounding rectangle starts at [(left, top)]. *)
Definition startMove (clientX clientY left top : R) (this : Sphere.t)
  : Drag * Sphere.t :=
  (mkDrag clientX clientY clientX clientY (clientX - left) (clientY - top),
   Sphere.setIsMoving true this).

(** [onMove], for a pointer now at [(clientX, clientY)]. *)
Definition onMove (clientX clientY : R) (this : Sphere.t) (s : Drag * Store)
  : Drag * Store :=
  let d := fst s in
  (mkDrag (startX d) (startY d) clientX clientY (clickX d) (clickY d),
   rotateXY ((clientX - prevX d) / Sphere.radius this)
            ((clientY - prevY d) / Sphere.radius this) this (snd s)).

(** The pointer goes through [moves], one [onMove] each. *)
Definition drag (moves : list (R * R)) (this : Sphere.t) (s : Drag * Store)
  : Drag * Store :=
  fold_left (fun s m => onMove (fst m) (snd m) this s) moves s.

(** ** The sphere the points lie on *)

(** Every object of the collections is at distance [radius] from the middle
    of the container. *)
Definition onSphere (this : Sphere.t) (st : Store) : Prop :=
  forall r p,
    In r (trackedRefs st) -> heap st !! r = Some p ->
    normSq (Sphere.containerWidth this / 2) (Sphere.containerHeight this / 2) p
    = Sphere.radius this ^ 2.

(** A call of a method of the instance that moves points or adds one. *)
Inductive Call : Type :=
| CallRotateXY (dy dx : R)
| CallZoom (zoomFactor : R)
| CallAbsoluteZoom (zoomFactor : R)
| CallSetContainerSize (width height : R) (resize : bool)
                       (paddingPercentage : option R)
| CallAddCustomObject (ra dec : R) (data : JsVal).

Definition call (s : Sphere.t * Store) (c : Call) : Sphere.t * Store :=
  match c with
  | CallRotateXY dy dx => (fst s, rotateXY dy dx (fst s) (snd s))
  | CallZoom f => zoom f (fst s) (snd s)
  | CallAbsoluteZoom k => absoluteZoom k (fst s) (snd s)
  | CallSetContainerSize w h resize padding =>
      setContainerSize w h resize padding (fst s) (snd s)
  | CallAddCustomObject ra dec data =>
      (fst s, snd (addCustomObject ra dec data (fst s) (snd s)))
  end.

Definition calls (cs : list Call) (s : Sphere.t * Store) : Sphere.t * Store :=
  fold_left call cs s.

(** A store with one custom object, for examples. *)
Definition oneObjectStore : Store :=
  mkStore [SkyPoint.mk 1 2 3 None] [] [] [0%nat].

(** ** Drawing *)

(** The truth value of a JavaScript value (there is no [NaN] among the
    reals). *)
Definition truthy (v : JsVal) : bool :=
  match v with
  | JUndefined | JNull => false
  | JBool b => b
  | JNum r => negb (Req_b r 0)
  | JStr EmptyString => false
  | JStr (String _ _) => true
  | JObj _ => true
  end.

(** [v || d] *)
Definition jsOr (v d : JsVal) : JsVal := if truthy v then v else d.

(** [Math.floor] *)
Definition floor (x : R) : Z := Int_part x.

(** What is asked of the drawing context. *)
Inductive DrawCmd : Type :=
| ClearRect (width height : R)          (* [clearRect(0, 0, width, height)] *)
| FillStyle (v : JsVal)
| StrokeStyle (v : JsVal)
| Outline (x y radius : R)              (* [arc], [fill], [stroke] *)
| Segment (x1 y1 x2 y2 : Z)             (* [moveTo], [lineTo], [stroke] *)
| Dot (x y : Z) (radius : JsVal).       (* [arc], [fill] *)

(** The three loops of [drawSky]: what was drawn, and whether the loop ran to
    its end or threw. *)
Fixpoint drawStarLines (h : list SkyPoint.t) (lines : list StarLine)
  : list DrawCmd * Completion unit :=
  match lines with
  | [] => ([], Normal tt)
  | star :: rest =>
      match h !! skyPoint1 star, h !! skyPoint2 star with
      | Some p1, Some p2 =>
          let cmds :=
            if Rlt_b 0 (SkyPoint.z p1) && Rlt_b 0 (SkyPoint.z p2)
            then [Segment (floor (SkyPoint.x p1)) (floor (SkyPoint.y p1))
                          (floor (SkyPoint.x p2)) (floor (SkyPoint.y p2))]
            else [] in
          (cmds ++ fst (drawStarLines h rest), snd (drawStarLines h rest))
      | _, _ => ([], TypeError)
      end
  end.

Fixpoint drawStarPoints (h : list SkyPoint.t) (starPoints : list ref)
  : list DrawCmd * Completion unit :=
  match starPoints with
  | [] => ([], Normal tt)
  | r :: rest =>
      match h !! r with
      | Some p =>
          let cmds :=
            if Rge_b (SkyPoint.z p) 0
            then [Dot (floor (SkyPoint.x p)) (floor (SkyPoint.y p)) (JNum 2)]
            else [] in
          (cmds ++ fst (drawStarPoints h rest), snd (drawStarPoints h rest))
      | None => ([], TypeError)
      end
  end.

Fixpoint drawObjectPoints (h : list SkyPoint.t) (objectPoints : list ref)
  : list DrawCmd * Completion unit :=
  match objectPoints with
  | [] => ([], Normal tt)
  | r :: rest =>
      match h !! r with
      | Some p =>
          if Rge_b (SkyPoint.z p) 0
          then
            match getProp (SkyPoint.getData p) "color",
                  getProp (SkyPoint.getData p) "radius" with
            | Normal color, Normal radius =>
                (FillStyle (jsOr color (JStr "#ff0000"))
                   :: Dot (floor (SkyPoint.x p)) (floor (SkyPoint.y p))
                          (jsOr radius (JNum 2))
                   :: fst (drawObjectPoints h rest),
                 snd (drawObjectPoints h rest))
            | _, _ => ([], TypeError)
            end
          else drawObjectPoints h rest
      | None => ([], TypeError)
      end
  end.

(** [drawSky], [backgroundColor] being [this.options.backgroundColor]
    ([JUndefined] when the option is not given); the canvas has the size of
    the container. *)
Definition drawSky (backgroundColor : JsVal) (this : Sphere.t) (st : Store)
  : list DrawCmd * Completion unit :=
  let header :=
    [ClearRect (Sphere.containerWidth this) (Sphere.containerHeight this);
     FillStyle (jsOr backgroundColor (JStr "#000"));
     StrokeStyle (JStr "#666");
     Outline (Sphere.containerWidth this / 2) (Sphere.containerHeight this / 2)
             (Sphere.radius this);
     StrokeStyle (JStr "#aaa")] in
  let lines := drawStarLines (heap st) (starLines st) in
  let stars := drawStarPoints (heap st) (starPoints st) in
  let objects := drawObjectPoints (heap st) (objectPoints st) in
  match snd lines with
  | TypeError => (header ++ fst lines, TypeError)
  | Normal _ =>
      match snd stars with
      | TypeError =>
          (header ++ fst lines ++ FillStyle (JStr "#fff") :: fst stars, TypeError)
      | Normal _ =>
          (header ++ fst lines ++ FillStyle (JStr "#fff") :: fst stars
             ++ fst objects,
           snd objects)
      end
  end.

(** ** The frame scheduler *)

(** The loop of [step] over [instances], each instance with its
    [backgroundColor]: the value of [renew] at the end, when no [drawSky]
    threw. *)
Fixpoint stepLoop (instances : list (JsVal * Sphere.t)) (st : Store)
    (renew : bool) : Completion bool :=
  match instances with
  | [] => Normal renew
  | (backgroundColor, instance) :: rest =>
      if Sphere.isMoving instance
      then match snd (drawSky backgroundColor instance st) with
           | Normal _ => stepLoop rest st true
           | TypeError => TypeError
           end
      else stepLoop rest st renew
  end.

(** [step]: [Normal true] when it ends by calling [nextFrame], [Normal false]
    when it ends without, [TypeError] when a [drawSky] threw. *)
Definition step (instances : list (JsVal * Sphere.t)) (st : Store)
  : Completion bool :=
  stepLoop instances st false.

(** The calls of a sequence that divide by the radius ([absoluteZoom], and
    [setContainerSize] when it resizes) find it not zero. *)
Fixpoint callsDefined (cs : list Call) (s : Sphere.t * Store) : Prop :=
  match cs with
  | [] => True
  | c :: rest =>
      match c with
      | CallAbsoluteZoom _ | CallSetContainerSize _ _ true _ =>
          Sphere.radius (fst s) <> 0
      | _ => True
      end
      /\ callsDefined rest (call s c)
  end.

(** * Properties *)

(** ** The transform engine on the heap *)

Lemma alterAll_lookup (f : SkyPoint.t -> SkyPoint.t) (refs : list ref)
    (h : list SkyPoint.t) (r : ref) :
  fold_left (fun h r => alter f r h) refs h !! r
  = Nat.iter (count_occ Nat.eq_dec refs r) f <$> h !! r.
Proof.
  revert h; induction refs as [|a refs IH]; intros h; simpl.
  - by destruct (h !! r).
  - rewrite IH. destruct (Nat.eq_dec a r) as [->|Hne].
    + rewrite list_lookup_alter_eq. destruct (h !! r) as [p|]; simpl; [|done].
      by rewrite <- Nat.iter_succ_r.
    + by rewrite list_lookup_alter_ne.
Qed.

Lemma alterAll_lines (f : SkyPoint.t -> SkyPoint.t) (lines : list StarLine)
    (h : list SkyPoint.t) :
  fold_left (fun h starLine =>
               alter f (skyPoint2 starLine) (alter f (skyPoint1 starLine) h))
            lines h
  = fold_left (fun h r => alter f r h)
      (flat_map (fun starLine => [skyPoint1 starLine; skyPoint2 starLine]) lines) h.
Proof.
  revert h; induction lines as [|ln lines IH]; intros h; simpl; [done|].
  apply IH.
Qed.

Lemma applyTransform_heap (f : SkyPoint.t -> SkyPoint.t) (st : Store) :
  heap (applyTransform f st)
  = fold_left (fun h r => alter f r h) (trackedRefs st) (heap st).
Proof.
  unfold applyTransform, trackedRefs; simpl.
  by rewrite !fold_left_app, alterAll_lines.
Qed.

Lemma applyTransform_lookup (f : SkyPoint.t -> SkyPoint.t) (st : Store) (r : ref) :
  heap (applyTransform f st) !! r = Nat.iter (visits st r) f <$> heap st !! r.
Proof. rewrite applyTransform_heap. apply alterAll_lookup. Qed.

Lemma applyTransform_trackedRefs (f : SkyPoint.t -> SkyPoint.t) (st : Store) :
  trackedRefs (applyTransform f st) = trackedRefs st.
Proof. done. Qed.

Lemma applyTransform_length (f : SkyPoint.t -> SkyPoint.t) (st : Store) :
  length (heap (applyTransform f st)) = length (heap st).
Proof.
  rewrite applyTransform_heap. generalize (heap st).
  induction (trackedRefs st) as [|a refs IH]; intros h; simpl; [done|].
  by rewrite IH, length_alter.
Qed.

(** ** Coordinate conversion *)

(** C9: [dec2rad dec] is [(dec + 90) * PI / 180] and [ra2rad ra] is
    [ra * PI / 12] for every input; [dec2rad (-90) = 0], [dec2rad 90 = PI],
    [ra2rad 0 = 0] and [ra2rad 24 = 2 * PI]. *)
Theorem conversions_spec :
  (forall dec, dec2rad dec = (dec + 90) * PI / 180)
  /\ (forall ra, ra2rad ra = ra * PI / 12)
  /\ dec2rad (-90) = 0 /\ dec2rad 90 = PI
  /\ ra2rad 0 = 0 /\ ra2rad 24 = 2 * PI.
Proof.
  unfold dec2rad, ra2rad. repeat split; intros; field.
Qed.

(** ** Projector *)

(** C1: [generateSkyPoint] returns the point with
    [x = r * sin dec * cos ra + centerX], [y = - r * sin dec * sin ra + centerY]
    and [z = r * cos dec], [r] the radius and [(centerX, centerY)] the middle
    of the container; the result has a [data] property, holding the argument,
    exactly when the argument is not [undefined]. *)
Theorem generateSkyPoint_spec (this : Sphere.t) (ra dec : R) (data : JsVal) :
  let r := Sphere.radius this in
  let centerX := Sphere.containerWidth this / 2 in
  let centerY := Sphere.containerHeight this / 2 in
  let p := generateSkyPoint this ra dec data in
  SkyPoint.x p = r * sin dec * cos ra + centerX
  /\ SkyPoint.y p = - r * sin dec * sin ra + centerY
  /\ SkyPoint.z p = r * cos dec
  /\ (is_Some (SkyPoint.data p) <-> data <> JUndefined)
  /\ (data <> JUndefined -> SkyPoint.data p = Some data).
Proof.
  simpl. repeat split; try done.
  - intros [v Hv] ->. simpl in Hv. done.
  - intros Hd. destruct data; simpl; by eauto.
  - intros Hd. by destruct data.
Qed.

Lemma generateSkyPoint_spec_witness :
  let this := initSphere (Options.mk None None None false) in
  let data := JObj [("name"%string, JStr "Sun")] in
  data <> JUndefined
  /\ SkyPoint.data (generateSkyPoint this 1 2 data) = Some data.
Proof.
  intros this data.
  assert (Hd : data <> JUndefined) by discriminate.
  destruct (generateSkyPoint_spec this 1 2 data) as (_ & _ & _ & _ & Hdata).
  exact (conj Hd (Hdata Hd)).
Defined.

(** ** Rotation *)

(** C2 (as stated, refuted): for a pitch of [PI / 2] and no yaw, the formula
    of the specification leaves the point [(1, 0, 0)] of a viewport centred at
    the origin where it is, while [rotateXY] moves it to [x = 0]. *)
Lemma rotatePoint_differs_from_spec_formula :
  SkyPoint.x (rotatePoint 0 0 (PI / 2) 0 (SkyPoint.mk 1 0 0 None)) = 0
  /\ SkyPoint.x (specRotatePoint 0 0 (PI / 2) 0 (SkyPoint.mk 1 0 0 None)) = 1
  /\ rotatePoint 0 0 (PI / 2) 0 (SkyPoint.mk 1 0 0 None)
     <> specRotatePoint 0 0 (PI / 2) 0 (SkyPoint.mk 1 0 0 None).
Proof.
  assert (Hx : SkyPoint.x (rotatePoint 0 0 (PI / 2) 0 (SkyPoint.mk 1 0 0 None)) = 0).
  { simpl. rewrite cos_PI2. lra. }
  assert (Hs : SkyPoint.x (specRotatePoint 0 0 (PI / 2) 0 (SkyPoint.mk 1 0 0 None)) = 1).
  { simpl. rewrite cos_0. lra. }
  repeat split; try done.
  intros Heq. rewrite Heq, Hs in Hx. lra.
Qed.

(** C2 (amended): with [sx = sin dYaw], [cx = cos dYaw], [sy = sin dPitch],
    [cy = cos dPitch], [x' = x - centerX] and [y' = - y + centerY], the closure
    of [rotateXY dPitch dYaw] sets
    [x := x' * cy + z * sy + centerX],
    [y := - x' * sx * sy - y' * cx + z * sx * cy + centerY] and
    [z := - x' * cx * sy + y' * sx + z * cx * cy], and leaves [data];
    [rotateXY] applies it to a point once for each time the collections hold
    it. *)
Theorem rotateXY_formula (this : Sphere.t) (st : Store) (dPitch dYaw : R) :
  let centerX := Sphere.containerWidth this / 2 in
  let centerY := Sphere.containerHeight this / 2 in
  let sx := sin dYaw in
  let cx := cos dYaw in
  let sy := sin dPitch in
  let cy := cos dPitch in
  (forall p : SkyPoint.t,
     let x' := SkyPoint.x p - centerX in
     let y' := - SkyPoint.y p + centerY in
     rotatePoint centerX centerY dPitch dYaw p
     = SkyPoint.mk (x' * cy + SkyPoint.z p * sy + centerX)
                   (- x' * sx * sy - y' * cx + SkyPoint.z p * sx * cy + centerY)
                   (- x' * cx * sy + y' * sx + SkyPoint.z p * cx * cy)
                   (SkyPoint.data p))
  /\ (forall r : ref,
        heap (rotateXY dPitch dYaw this st) !! r
        = Nat.iter (visits st r) (rotatePoint centerX centerY dPitch dYaw)
            <$> heap st !! r).
Proof.
  simpl. split.
  - intros p. unfold rotatePoint. f_equal; ring.
  - intros r. unfold rotateXY. apply applyTransform_lookup.
Qed.

Lemma rotatePoint_normSq (centerX centerY dy dx : R) (p : SkyPoint.t) :
  normSq centerX centerY (rotatePoint centerX centerY dy dx p)
  = normSq centerX centerY p.
Proof.
  assert (Hu : sin dx * sin dx + cos dx * cos dx = 1).
  { generalize (sin2_cos2 dx). unfold Rsqr. lra. }
  assert (Hv : sin dy * sin dy + cos dy * cos dy = 1).
  { generalize (sin2_cos2 dy). unfold Rsqr. lra. }
  unfold normSq, rotatePoint; simpl.
  set (x := SkyPoint.x p - centerX). set (y := - SkyPoint.y p + centerY).
  set (z := SkyPoint.z p).
  apply Rminus_diag_uniq.
  transitivity
    ((x * x + z * z) * (sin dy * sin dy + cos dy * cos dy - 1)
     + (x * x * (sin dy * sin dy) + y * y + z * z * (cos dy * cos dy)
        - 2 * x * z * sin dy * cos dy)
       * (sin dx * sin dx + cos dx * cos dx - 1)).
  - unfold x, y, z. ring.
  - rewrite Hu, Hv. ring.
Qed.

Lemma iter_rotatePoint_normSq (n : nat) (centerX centerY dy dx : R)
    (p : SkyPoint.t) :
  normSq centerX centerY (Nat.iter n (rotatePoint centerX centerY dy dx) p)
  = normSq centerX centerY p.
Proof.
  induction n as [|n IH]; simpl; [done|]. by rewrite rotatePoint_normSq.
Qed.

(** C3: whatever the sequence of [rotateXY] calls on an instance, every point
    object keeps its squared distance
    [(x - centerX)^2 + (y - centerY)^2 + z^2] to the viewport center. *)
Theorem rotateXY_preserves_norm (this : Sphere.t) (st : Store)
    (calls : list (R * R)) (r : ref) (p : SkyPoint.t) :
  heap st !! r = Some p ->
  let centerX := Sphere.containerWidth this / 2 in
  let centerY := Sphere.containerHeight this / 2 in
  exists p', heap (rotateMany calls this st) !! r = Some p'
             /\ normSq centerX centerY p' = normSq centerX centerY p.
Proof.
  simpl. revert st p. induction calls as [|[dy dx] calls IH]; intros st p Hp; simpl.
  - by exists p.
  - destruct (IH (rotateXY dy dx this st)
                 (Nat.iter (visits st r)
                    (rotatePoint (Sphere.containerWidth this / 2)
                                 (Sphere.containerHeight this / 2) dy dx) p))
      as (p' & Hp' & Hn).
    { unfold rotateXY. by rewrite applyTransform_lookup, Hp. }
    exists p'. split; [done|]. by rewrite Hn, iter_rotatePoint_normSq.
Qed.

Lemma rotateXY_preserves_norm_witness :
  let this := initSphere (Options.mk None None None false) in
  let st := mkStore [SkyPoint.mk 1 2 3 None] [] [] [0%nat] in
  heap st !! 0%nat = Some (SkyPoint.mk 1 2 3 None)
  /\ exists p', heap (rotateMany [(1, 2); (3, 4)] this st) !! 0%nat = Some p'
                /\ normSq (Sphere.containerWidth this / 2)
                          (Sphere.containerHeight this / 2) p'
                   = normSq (Sphere.containerWidth this / 2)
                            (Sphere.containerHeight this / 2)
                            (SkyPoint.mk 1 2 3 None).
Proof.
  split; [reflexivity|].
  apply (rotateXY_preserves_norm
           (initSphere (Options.mk None None None false))
           (mkStore [SkyPoint.mk 1 2 3 None] [] [] [0%nat])
           [(1, 2); (3, 4)] 0%nat (SkyPoint.mk 1 2 3 None)).
  reflexivity.
Defined.

(** ** Zoom *)

Lemma zoom_radius (f : R) (this : Sphere.t) (st : Store) :
  Sphere.radius (fst (zoom f this st)) = Sphere.radius this * f.
Proof. unfold zoom; simpl. by destruct (trackedRefs st). Qed.




Lemma applyTransform_id (f : SkyPoint.t -> SkyPoint.t) (st : Store) :
  (forall p, f p = p) -> applyTransform f st = st.
Proof.
  intros Hf. destruct st as [h lines stars objs].
  assert (Hh : heap (applyTransform f (mkStore h lines stars objs)) = h).
  { rewrite applyTransform_heap. simpl.
    generalize (trackedRefs (mkStore h lines stars objs)).
    intros refs. induction refs as [|a refs IH]; simpl; [done|].
    by rewrite list_alter_id. }
  unfold applyTransform in *. simpl in *. by rewrite Hh.
Qed.



(** ** Hit test *)

Lemma Rlt_b_true (a b : R) : a < b -> Rlt_b a b = true.
Proof. intros H. unfold Rlt_b. by destruct (Rlt_dec a b). Qed.

Lemma Rlt_b_false (a b : R) : ~ a < b -> Rlt_b a b = false.
Proof. intros H. unfold Rlt_b. by destruct (Rlt_dec a b). Qed.

Lemma Rge_b_true (a b : R) : a >= b -> Rge_b a b = true.
Proof. intros H. unfold Rge_b. by destruct (Rge_dec a b). Qed.

Lemma Req_b_true (a b : R) : a = b -> Req_b a b = true.
Proof. intros H. unfold Req_b. by destruct (Req_dec_T a b). Qed.

Lemma Req_b_false (a b : R) : a <> b -> Req_b a b = false.
Proof. intros H. unfold Req_b. by destruct (Req_dec_T a b). Qed.

Lemma hits_test (area x y : R) (p : SkyPoint.t) :
  hits area x y p ->
  Rlt_b (Rabs (SkyPoint.x p - x)) area
  && Rlt_b (Rabs (SkyPoint.y p - y)) area
  && Rge_b (SkyPoint.z p) 0 = true.
Proof.
  intros (Hx & Hy & Hz).
  by rewrite (Rlt_b_true _ _ Hx), (Rlt_b_true _ _ Hy), (Rge_b_true _ _ Hz).
Qed.

Lemma not_hits_test (area x y : R) (p : SkyPoint.t) :
  ~ hits area x y p ->
  Rlt_b (Rabs (SkyPoint.x p - x)) area
  && Rlt_b (Rabs (SkyPoint.y p - y)) area
  && Rge_b (SkyPoint.z p) 0 = false.
Proof.
  intros Hn. unfold Rlt_b, Rge_b.
  destruct (Rlt_dec (Rabs (SkyPoint.x p - x)) area); [|done].
  destruct (Rlt_dec (Rabs (SkyPoint.y p - y)) area); [|done].
  destruct (Rge_dec (SkyPoint.z p) 0); [|done].
  by destruct Hn.
Qed.

Lemma hitTest_skip (area x y : R) (h : list SkyPoint.t) (pre rest : list ref) :
  Forall (misses area x y h) pre ->
  hitTest area x y h (pre ++ rest) = hitTest area x y h rest.
Proof.
  induction 1 as [|r pre (p & Hp & Hn) _ IH]; simpl; [done|].
  by rewrite Hp, (not_hits_test _ _ _ _ Hn).
Qed.

(** C5 (as stated, refuted): the comparison with the tolerance is strict.
    With a tolerance of [0], an object in front of the viewer and exactly at
    the position of the click is not found; and with the tolerance [6] of a
    pointer without touch, neither is an object [6] pixels away. *)
Lemma hitTest_strict_tolerance :
  hitTest 0 5 7
    [SkyPoint.mk 5 7 1 (Some (JObj [("clickData"%string, JStr "sun")]))]
    [0%nat]
  = Normal None
  /\ hitTest (area false) 5 7
       [SkyPoint.mk 11 7 1 (Some (JObj [("clickData"%string, JStr "sun")]))]
       [0%nat]
     = Normal None.
Proof.
  split; simpl.
  - rewrite Rlt_b_false; [done|].
    replace (5 - 5) with 0 by ring. rewrite Rabs_R0. lra.
  - rewrite Rlt_b_false; [done|].
    replace (11 - 5) with 6 by ring. rewrite Rabs_pos_eq; lra.
Qed.

(** C5 (amended): the hit test scans [objectPoints] in insertion order and
    stops at the first object that lies strictly within the tolerance of the
    click on each axis ([|x - clickX| < area] and [|y - clickY| < area]) with
    [z >= 0]; when that object carries a [data] object its [clickData] is
    given, and when no object passes the test nothing is; so an object
    exactly at the click with [z > 0] passes the test for every tolerance
    [> 0], and an object with [z < 0] never passes it. *)
Theorem hitTest_first_match (area x y : R) (h : list SkyPoint.t)
    (objectPoints : list ref) :
  (forall pre r post p props,
      objectPoints = pre ++ r :: post ->
      Forall (misses area x y h) pre ->
      h !! r = Some p ->
      hits area x y p ->
      SkyPoint.data p = Some (JObj props) ->
      hitTest area x y h objectPoints = Normal (Some (ownProp "clickData" props)))
  /\ (Forall (misses area x y h) objectPoints ->
      hitTest area x y h objectPoints = Normal None)
  /\ (forall p, 0 < area -> SkyPoint.x p = x -> SkyPoint.y p = y ->
                SkyPoint.z p > 0 -> hits area x y p)
  /\ (forall p, SkyPoint.z p < 0 -> ~ hits area x y p).
Proof.
  split; [|split; [|split]].
  - intros pre r post p props -> Hpre Hr Hhit Hdata.
    rewrite (hitTest_skip _ _ _ _ _ _ Hpre). simpl.
    rewrite Hr, (hits_test _ _ _ _ Hhit).
    unfold SkyPoint.getData. by rewrite Hdata.
  - intros Hall. rewrite <- (app_nil_r objectPoints).
    by rewrite (hitTest_skip _ _ _ _ _ _ Hall).
  - intros p Harea Hx Hy Hz. unfold hits. rewrite Hx, Hy.
    replace (x - x) with 0 by ring. replace (y - y) with 0 by ring.
    rewrite Rabs_R0. repeat split; lra.
  - intros p Hz Hhit. destruct Hhit as [_ [_ Hge]]. lra.
Qed.

Lemma hitTest_first_match_witness :
  let sun := SkyPoint.mk 5 7 1 (Some (JObj [("clickData"%string, JStr "sun")])) in
  let behind := SkyPoint.mk 5 7 (-1) (Some (JObj [("clickData"%string, JStr "moon")])) in
  [0%nat; 1%nat] = [0%nat] ++ 1%nat :: []
  /\ Forall (misses 6 5 7 [behind; sun]) [0%nat]
  /\ [behind; sun] !! 1%nat = Some sun
  /\ hits 6 5 7 sun
  /\ SkyPoint.data sun = Some (JObj [("clickData"%string, JStr "sun")])
  /\ hitTest 6 5 7 [behind; sun] [0%nat; 1%nat] = Normal (Some (JStr "sun")).
Proof.
  intros sun behind.
  destruct (hitTest_first_match 6 5 7 [behind; sun] [0%nat; 1%nat])
    as (Hfirst & _ & Hfront & Hback).
  assert (Hpre : Forall (misses 6 5 7 [behind; sun]) [0%nat]).
  { constructor; [|constructor]. exists behind. split; [reflexivity|].
    apply Hback. simpl. lra. }
  assert (Hhit : hits 6 5 7 sun).
  { apply Hfront; simpl; lra. }
  exact (conj eq_refl (conj Hpre (conj eq_refl (conj Hhit (conj eq_refl
           (Hfirst [0%nat] 1%nat [] sun [("clickData"%string, JStr "sun")]
                   eq_refl Hpre eq_refl Hhit eq_refl)))))).
Defined.

Lemma hitTest_payloadless (area x y : R) (h : list SkyPoint.t)
    (pre : list ref) (r : ref) (post : list ref) (p : SkyPoint.t) :
  Forall (misses area x y h) pre ->
  h !! r = Some p ->
  hits area x y p ->
  SkyPoint.data p = None ->
  hitTest area x y h (pre ++ r :: post) = TypeError.
Proof.
  intros Hpre Hr Hhit Hdata.
  rewrite (hitTest_skip _ _ _ _ _ _ Hpre). simpl.
  rewrite Hr, (hits_test _ _ _ _ Hhit).
  unfold SkyPoint.getData. by rewrite Hdata.
Qed.

Lemma Rmin_400 : Rmin 400 400 = 400.
Proof. apply Rmin_left. lra. Qed.

(** C8 (the code where it departs from the claim): on an instance of 400 by
    400 built with a [customOnClick], [addCustomObject(0, -90)] without data
    puts a point at the middle of the canvas, facing the viewer; a click there
    selects it and throws on [skyPoint.data.clickData]. *)
Theorem payloadless_tap_throws :
  let this := initSphere (Options.mk None None None true) in
  let st := snd (addCustomObject 0 (-90) JUndefined this emptyStore) in
  heap st !! 0%nat = Some (SkyPoint.mk 200 200 180 None)
  /\ objectPoints st = [0%nat]
  /\ snd (stopMove (area false) (mkDrag 10 10 10 10 200 200) this st) = TypeError.
Proof.
  intros this st.
  assert (Hp : heap st !! 0%nat = Some (SkyPoint.mk 200 200 180 None)).
  { unfold st, addCustomObject, generateSkyPoint; simpl.
    replace (dec2rad (-90)) with 0 by (unfold dec2rad; field).
    rewrite sin_0, cos_0, Rmin_400. do 2 f_equal; lra. }
  split; [done|]. split; [done|].
  unfold stopMove. cbn [prevX startX prevY startY clickX clickY snd].
  rewrite !Req_b_true by done. simpl andb. cbn [snd].
  change (objectPoints st) with ([] ++ 0%nat :: @nil nat).
  apply hitTest_payloadless with (p := SkyPoint.mk 200 200 180 None);
    [constructor | done | | done].
  unfold hits, area; simpl.
  replace (200 - 200) with 0 by ring. rewrite Rabs_R0. repeat split; lra.
Qed.

(** ** Collections *)

(** C7 (the code where it departs from the claim): with a catalog of one line
    between two stars, building a second instance appends its line and its
    stars to the arrays the first instance reads, and a custom object added to
    the second instance shows in the [objectPoints] of the first. *)
Theorem second_instance_shares_collections :
  let c := Constellations.mk [(0%nat, 1%nat)] [(0, 0); (1, 1)] in
  let o := Options.mk None None None false in
  exists this1 st1 this2 st2 st3,
    SkySphere c o emptyStore = Some (this1, st1)
    /\ SkySphere c o st1 = Some (this2, st2)
    /\ st3 = snd (addCustomObject 0 0 JUndefined this2 st2)
    /\ lookupStarLines this1 st1 = [mkStarLine 0 1]
    /\ lookupStarLines this1 st2 = [mkStarLine 0 1; mkStarLine 4 5]
    /\ lookupStarPoints this1 st1 = [2%nat; 3%nat]
    /\ lookupStarPoints this1 st2 = [2%nat; 3%nat; 6%nat; 7%nat]
    /\ lookupObjectPoints this1 st2 = []
    /\ lookupObjectPoints this1 st3 = [8%nat].
Proof.
  intros c o.
  eexists _, _, _, _, _.
  split; [reflexivity|]. split; [reflexivity|]. split; [reflexivity|].
  repeat split; reflexivity.
Qed.

Lemma visits_split (st : Store) (r : ref) :
  visits st r
  = (count_occ Nat.eq_dec
       (flat_map (fun starLine => [skyPoint1 starLine; skyPoint2 starLine])
                 (starLines st)) r
     + count_occ Nat.eq_dec (starPoints st) r
     + count_occ Nat.eq_dec (objectPoints st) r)%nat.
Proof. unfold visits, trackedRefs. rewrite !count_occ_app. lia. Qed.

Lemma count_occ_single (a r : ref) :
  count_occ Nat.eq_dec [a] r = if Nat.eq_dec a r then 1%nat else 0%nat.
Proof. simpl. by destruct (Nat.eq_dec a r). Qed.

Lemma wfStore_empty : wfStore emptyStore.
Proof. intros r. unfold visits. simpl. lia. Qed.

Lemma wfStore_applyTransform (f : SkyPoint.t -> SkyPoint.t) (st : Store) :
  wfStore st -> wfStore (applyTransform f st).
Proof.
  intros Hwf r. destruct (Hwf r) as [H1 H2].
  unfold visits. rewrite applyTransform_trackedRefs, applyTransform_length.
  by split.
Qed.

Lemma wfStore_pushStarPoint (p : SkyPoint.t) (st : Store) :
  wfStore st ->
  wfStore (mkStore (heap st ++ [p]) (starLines st)
                   (starPoints st ++ [length (heap st)]) (objectPoints st)).
Proof.
  intros Hwf r. destruct (Hwf r) as [H1 H2].
  rewrite visits_split in *. simpl.
  rewrite count_occ_app, count_occ_single, length_app. simpl.
  destruct (Nat.eq_dec (length (heap st)) r) as [<-|Hne]; lia.
Qed.

Lemma wfStore_pushObjectPoint (p : SkyPoint.t) (st : Store) :
  wfStore st ->
  wfStore (mkStore (heap st ++ [p]) (starLines st) (starPoints st)
                   (objectPoints st ++ [length (heap st)])).
Proof.
  intros Hwf r. destruct (Hwf r) as [H1 H2].
  rewrite visits_split in *. simpl.
  rewrite count_occ_app, count_occ_single, length_app. simpl.
  destruct (Nat.eq_dec (length (heap st)) r) as [<-|Hne]; lia.
Qed.

Lemma wfStore_pushStarLine (p1 p2 : SkyPoint.t) (st : Store) :
  wfStore st ->
  wfStore (mkStore ((heap st ++ [p1]) ++ [p2])
                   (starLines st
                    ++ [mkStarLine (length (heap st)) (length (heap st ++ [p1]))])
                   (starPoints st) (objectPoints st)).
Proof.
  intros Hwf r. destruct (Hwf r) as [H1 H2].
  rewrite visits_split in *. simpl.
  rewrite flat_map_app, count_occ_app, !length_app. simpl.
  repeat match goal with
         | |- context [Nat.eq_dec ?a ?b] => destruct (Nat.eq_dec a b)
         end; lia.
Qed.

Lemma wfStore_generateStarPoints (this : Sphere.t) (stars : list (R * R))
    (st : Store) :
  wfStore st -> wfStore (generateStarPoints this stars st).
Proof.
  revert st; induction stars as [|star stars IH]; intros st Hwf; simpl; [done|].
  apply IH. by apply wfStore_pushStarPoint.
Qed.

Lemma wfStore_generateStarLines (this : Sphere.t) (stars : list (R * R))
    (lines : list (nat * nat)) (st st' : Store) :
  wfStore st -> generateStarLines this stars lines st = Some st' -> wfStore st'.
Proof.
  revert st; induction lines as [|[i1 i2] lines IH]; intros st Hwf; simpl.
  - by intros [= <-].
  - destruct (stars !! i1) as [star1|]; [|done].
    destruct (stars !! i2) as [star2|]; [|done].
    apply IH. by apply wfStore_pushStarLine.
Qed.

(** Building an instance and adding an object keep the store well formed. *)
Lemma wfStore_SkySphere (c : Constellations.t) (o : Options.t)
    (st : Store) (this : Sphere.t) (st' : Store) :
  wfStore st -> SkySphere c o st = Some (this, st') -> wfStore st'.
Proof.
  intros Hwf. unfold SkySphere.
  destruct (generateStarLines _ _ _ st) as [st1|] eqn:Hl; simpl; [|done].
  intros [= _ <-]. apply wfStore_generateStarPoints.
  by eapply wfStore_generateStarLines.
Qed.

Lemma wfStore_addCustomObject (ra dec : R) (data : JsVal) (this : Sphere.t)
    (st : Store) :
  wfStore st -> wfStore (snd (addCustomObject ra dec data this st)).
Proof. intros Hwf. unfold addCustomObject; simpl. by apply wfStore_pushObjectPoint. Qed.

(** In a well formed store, [applyTransform] visits each object of the
    collections exactly once. *)
Lemma wfStore_visits (st : Store) (r : ref) :
  wfStore st -> In r (trackedRefs st) -> visits st r = 1%nat.
Proof.
  intros Hwf Hin. destruct (Hwf r) as [Hle _].
  apply (count_occ_In Nat.eq_dec) in Hin. unfold visits in *. lia.
Qed.

(** C10: [addCustomObject] appends one reference to [objectPoints], to a new
    object that is the projection of [(ra2rad ra, dec2rad dec)] under the
    radius and viewport of the instance, with [data]; it returns this very
    reference, so that a later rotation or zoom of the instance transforms the
    object the caller holds; [starLines], [starPoints] and the objects already
    there are left as they are.  (The method assigns nothing to the instance:
    its radius and viewport size are as before.) *)
Theorem addCustomObject_spec (ra dec : R) (data : JsVal) (this : Sphere.t)
    (st : Store) :
  wfStore st ->
  let r := fst (addCustomObject ra dec data this st) in
  let st' := snd (addCustomObject ra dec data this st) in
  let p := generateSkyPoint this (ra2rad ra) (dec2rad dec) data in
  let centerX := Sphere.containerWidth this / 2 in
  let centerY := Sphere.containerHeight this / 2 in
  objectPoints st' = objectPoints st ++ [r]
  /\ heap st !! r = None
  /\ heap st' !! r = Some p
  /\ (forall r', r' <> r -> heap st' !! r' = heap st !! r')
  /\ starLines st' = starLines st
  /\ starPoints st' = starPoints st
  /\ (forall dy dx,
        heap (rotateXY dy dx this st') !! r
        = Some (rotatePoint centerX centerY dy dx p))
  /\ (forall f,
        heap (snd (zoom f this st')) !! r
        = Some (zoomPoint centerX centerY f p)).
Proof.
  intros Hwf r st' p centerX centerY.
  assert (Hr : heap st' !! r = Some p).
  { unfold st', r, addCustomObject; simpl. by rewrite lookup_app_r, Nat.sub_diag. }
  assert (Hv : visits st' r = 1%nat).
  { destruct (Hwf (length (heap st))) as [_ H0].
    unfold st', r, addCustomObject; simpl.
    rewrite visits_split in *. simpl.
    rewrite count_occ_app, count_occ_single.
    destruct (Nat.eq_dec (length (heap st)) (length (heap st))); [|done].
    specialize (H0 (Nat.le_refl _)). lia. }
  split; [done|]. split; [by apply lookup_ge_None_2|]. split; [done|]. split.
  { intros r' Hne. unfold st', addCustomObject; simpl.
    destruct (Nat.lt_ge_cases r' (length (heap st))) as [Hlt|Hge].
    - by rewrite lookup_app_l.
    - rewrite lookup_ge_None_2, lookup_ge_None_2; [done|done|].
      rewrite length_app; simpl. unfold r, addCustomObject in Hne; simpl in Hne. lia. }
  split; [done|]. split; [done|]. split.
  - intros dy dx. unfold rotateXY. by rewrite applyTransform_lookup, Hv, Hr.
  - intros f. unfold zoom; cbn [snd]. by rewrite applyTransform_lookup, Hv, Hr.
Qed.

Lemma addCustomObject_spec_witness :
  let this := initSphere (Options.mk None None None false) in
  let data := JObj [("name"%string, JStr "Sun")] in
  let r := fst (addCustomObject 3 4 data this emptyStore) in
  let st' := snd (addCustomObject 3 4 data this emptyStore) in
  let p := generateSkyPoint this (ra2rad 3) (dec2rad 4) data in
  wfStore emptyStore
  /\ objectPoints st' = [r]
  /\ heap st' !! r = Some p
  /\ forall dy dx,
       heap (rotateXY dy dx this st') !! r
       = Some (rotatePoint (Sphere.containerWidth this / 2)
                           (Sphere.containerHeight this / 2) dy dx p).
Proof.
  intros this data r st' p.
  assert (Hwf : wfStore emptyStore).
  { intros r0. unfold visits. simpl. lia. }
  destruct (addCustomObject_spec 3 4 data this emptyStore Hwf)
    as (H1 & _ & H3 & _ & _ & _ & H7 & _).
  exact (conj Hwf (conj H1 (conj H3 H7))).
Defined.

(** ** Centering animation *)

Lemma PI_bounds : 31 / 10 < PI < 315 / 100.
Proof.
  destruct (PI_2_3_7_ineq 1) as [Hlo Hhi].
  unfold sum_f_R0, tg_alt, PI_2_3_7_tg, Ratan_seq in Hlo, Hhi.
  simpl in Hlo, Hhi.
  split; lra.
Qed.

Lemma sin_step_pos : 0 < sin (5 / 100).
Proof. generalize PI_bounds. intros [H1 H2]. apply sin_gt_0; lra. Qed.

Lemma cos_step_pos : 0 < cos (5 / 100).
Proof. generalize PI_bounds. intros [H1 H2]. apply cos_gt_0; lra. Qed.

Lemma turn_iter (d u v : R) (j : nat) :
  Nat.iter j (turn d) (u, v)
  = (u * cos (INR j * d) + v * sin (INR j * d),
     - u * sin (INR j * d) + v * cos (INR j * d)).
Proof.
  induction j as [|j IH].
  - simpl. rewrite Rmult_0_l, cos_0, sin_0. f_equal; ring.
  - rewrite S_INR. change (Nat.iter (S j) (turn d) (u, v))
      with (turn d (Nat.iter j (turn d) (u, v))).
    rewrite IH. unfold turn; simpl.
    replace ((INR j + 1) * d) with (INR j * d + d) by ring.
    rewrite cos_plus, sin_plus. f_equal; ring.
Qed.

Lemma turn_normSq (d : R) (q : R * R) :
  fst (turn d q) ^ 2 + snd (turn d q) ^ 2 = fst q ^ 2 + snd q ^ 2.
Proof.
  assert (H : sin d * sin d + cos d * cos d = 1).
  { generalize (sin2_cos2 d). unfold Rsqr. lra. }
  unfold turn; simpl. apply Rminus_diag_uniq.
  transitivity ((fst q * fst q + snd q * snd q)
                * (sin d * sin d + cos d * cos d - 1)); [ring|].
  rewrite H. ring.
Qed.

Lemma turn_iter_normSq (d : R) (q : R * R) (j : nat) :
  fst (Nat.iter j (turn d) q) ^ 2 + snd (Nat.iter j (turn d) q) ^ 2
  = fst q ^ 2 + snd q ^ 2.
Proof.
  induction j as [|j IH]; [done|].
  change (Nat.iter (S j) (turn d) q) with (turn d (Nat.iter j (turn d) q)).
  by rewrite turn_normSq.
Qed.

(** 62 steps are short of a half turn and 63 are past it: one of the two
    brings a point of the left half plane to the right. *)
Lemma turn_crosses (u v : R) :
  u < 0 ->
  exists j, (j <= 63)%nat /\ 0 <= fst (Nat.iter j (turn (5 / 100)) (u, v)).
Proof.
  intros Hu. destruct PI_bounds as [Hlo Hhi].
  assert (H62 : INR 62 * (5 / 100) = 31 / 10).
  { replace (INR 62) with 62 by (rewrite INR_IZR_INZ; reflexivity). lra. }
  assert (H63 : INR 63 * (5 / 100) = 31 / 10 + 5 / 100).
  { replace (INR 63) with 63 by (rewrite INR_IZR_INZ; reflexivity). lra. }
  assert (Ha : 0 < sin (31 / 10)) by (apply sin_gt_0; lra).
  assert (Hb : sin (31 / 10 + 5 / 100) < 0) by (apply sin_lt_0; lra).
  assert (Hs := sin_step_pos).
  assert (Hid : sin (31 / 10) * fst (Nat.iter 63 (turn (5 / 100)) (u, v))
                - sin (31 / 10 + 5 / 100) * fst (Nat.iter 62 (turn (5 / 100)) (u, v))
                = - u * sin (5 / 100)).
  { rewrite !turn_iter, H62, H63. cbn [fst].
    replace (sin (5 / 100)) with (sin ((31 / 10 + 5 / 100) - 31 / 10))
      by (f_equal; lra).
    rewrite sin_minus. ring. }
  destruct (Rle_dec 0 (fst (Nat.iter 62 (turn (5 / 100)) (u, v)))) as [H|H].
  { exists 62%nat. split; [lia|done]. }
  destruct (Rle_dec 0 (fst (Nat.iter 63 (turn (5 / 100)) (u, v)))) as [H'|H'].
  { exists 63%nat. split; [lia|done]. }
  exfalso.
  set (a := fst (Nat.iter 62 (turn (5 / 100)) (u, v))) in *.
  set (b := fst (Nat.iter 63 (turn (5 / 100)) (u, v))) in *.
  nra.
Qed.

Lemma first_false_below (f : nat -> bool) (n : nat) :
  (forall j, (j < n)%nat -> f j = true)
  \/ exists k, (k < n)%nat /\ f k = false /\ forall j, (j < k)%nat -> f j = true.
Proof.
  induction n as [|n [IH|(k & Hk & Hfk & Hlt)]].
  - left. intros j Hj. lia.
  - destruct (f n) eqn:E.
    + left. intros j Hj. destruct (decide (j = n)) as [->|Hne]; [done|].
      apply IH. lia.
    + right. exists n. split; [lia|]. by split.
  - right. exists k. split; [lia|]. by split.
Qed.

Lemma first_false (f : nat -> bool) (n : nat) :
  f n = false ->
  exists k, (k <= n)%nat /\ f k = false /\ forall j, (j < k)%nat -> f j = true.
Proof.
  intros Hn. destruct (first_false_below f (S n)) as [Hall|(k & Hk & Hfk & Hlt)].
  - rewrite Hall in Hn by lia. done.
  - exists k. split; [lia|]. by split.
Qed.

Lemma keepMoving_pos (u : R) : keepMoving (5 / 100) u = Rlt_b u 0.
Proof.
  unfold keepMoving.
  rewrite (Rlt_b_true 0 (5 / 100)) by lra.
  rewrite (Rlt_b_false (5 / 100) 0) by lra.
  unfold Rlt_b, Req_b.
  destruct (Req_dec_T u 0), (Rlt_dec u 0); simpl; try done. lra.
Qed.

Lemma keepMoving_neg (u : R) : keepMoving (- (5 / 100)) u = Rlt_b 0 u.
Proof.
  unfold keepMoving.
  rewrite (Rlt_b_false 0 (- (5 / 100))) by lra.
  rewrite (Rlt_b_true (- (5 / 100)) 0) by lra.
  simpl. by rewrite andb_false_r.
Qed.

(** The loop on a point of the left half plane. *)
Lemma turn_stops_left (u v : R) :
  u < 0 ->
  exists k, (k <= 63)%nat
    /\ (forall j, (j < k)%nat -> fst (Nat.iter j (turn (5 / 100)) (u, v)) < 0)
    /\ 0 <= fst (Nat.iter k (turn (5 / 100)) (u, v))
    /\ fst (Nat.iter k (turn (5 / 100)) (u, v)) ^ 2
       <= (u ^ 2 + v ^ 2) * sin (5 / 100) ^ 2.
Proof.
  intros Hu.
  destruct (turn_crosses u v Hu) as (n & Hn & Hcross).
  destruct (first_false
              (fun j => Rlt_b (fst (Nat.iter j (turn (5 / 100)) (u, v))) 0) n)
    as (k & Hk & Hfk & Hlt).
  { apply Rlt_b_false. lra. }
  assert (Hge : 0 <= fst (Nat.iter k (turn (5 / 100)) (u, v))).
  { unfold Rlt_b in Hfk. destruct (Rlt_dec _ 0); [done|lra]. }
  assert (Hbefore : forall j, (j < k)%nat ->
                      fst (Nat.iter j (turn (5 / 100)) (u, v)) < 0).
  { intros j Hj. specialize (Hlt j Hj). unfold Rlt_b in Hlt.
    by destruct (Rlt_dec _ 0). }
  exists k. split; [lia|]. split; [done|]. split; [done|].
  destruct k as [|k]; [simpl in Hge; lra|].
  assert (Hprev := Hbefore k (Nat.lt_succ_diag_r k)).
  assert (Hnorm := turn_iter_normSq (5 / 100) (u, v) k). cbn [fst snd] in Hnorm.
  change (Nat.iter (S k) (turn (5 / 100)) (u, v))
    with (turn (5 / 100) (Nat.iter k (turn (5 / 100)) (u, v))) in *.
  destruct (Nat.iter k (turn (5 / 100)) (u, v)) as [a b].
  unfold turn in *. cbn [fst snd] in *.
  assert (Hs := sin_step_pos). assert (Hc := cos_step_pos).
  rewrite <- Hnorm.
  set (s := sin (5 / 100)) in *. set (c := cos (5 / 100)) in *.
  assert (H1 : a * c < 0) by nra.
  assert (H2 : 0 <= a * c + b * s <= b * s) by lra.
  assert (H3 : (a * c + b * s) * (a * c + b * s) <= (b * s) * (b * s)) by nra.
  nra.
Qed.

(** The loop of one phase, from the side the point starts on. *)
Lemma turn_stops (u v : R) :
  let d := direction u in
  exists k, (k <= 63)%nat
    /\ (forall j, (j < k)%nat ->
          keepMoving d (fst (Nat.iter j (turn d) (u, v))) = true)
    /\ keepMoving d (fst (Nat.iter k (turn d) (u, v))) = false
    /\ fst (Nat.iter k (turn d) (u, v)) ^ 2
       <= (u ^ 2 + v ^ 2) * sin (5 / 100) ^ 2
    /\ (u = 0 -> k = 0%nat).
Proof.
  unfold direction.
  destruct (Rlt_dec u 0) as [Hu|Hu];
    [rewrite (Rlt_b_true _ _ Hu) | rewrite (Rlt_b_false _ _ Hu)]; cbv zeta.
  - destruct (turn_stops_left u v Hu) as (k & Hk & Hlt & Hge & Hb).
    exists k. split; [done|]. split; [|split; [|split]].
    + intros j Hj. rewrite keepMoving_pos. apply Rlt_b_true. by apply Hlt.
    + rewrite keepMoving_pos. apply Rlt_b_false. lra.
    + done.
    + lra.
  - destruct (Req_dec_T u 0) as [->|Hne].
    { exists 0%nat. split; [lia|]. split; [intros j Hj; lia|].
      split; [|split; [|done]].
      - simpl. rewrite keepMoving_neg. apply Rlt_b_false. lra.
      - simpl. assert (0 <= sin (5 / 100) ^ 2) by apply pow2_ge_0.
        assert (0 <= v ^ 2) by apply pow2_ge_0. nra. }
    assert (Hm : forall j, fst (Nat.iter j (turn (- (5 / 100))) (u, v))
                           = - fst (Nat.iter j (turn (5 / 100)) (- u, v))).
    { intros j. rewrite !turn_iter. cbn [fst].
      replace (INR j * - (5 / 100)) with (- (INR j * (5 / 100))) by ring.
      rewrite cos_neg, sin_neg. ring. }
    destruct (turn_stops_left (- u) v) as (k & Hk & Hlt & Hge & Hb); [lra|].
    exists k. split; [done|]. split; [|split; [|split]].
    + intros j Hj. rewrite keepMoving_neg, Hm. apply Rlt_b_true.
      specialize (Hlt j Hj). lra.
    + rewrite keepMoving_neg, Hm. apply Rlt_b_false. lra.
    + rewrite Hm. replace ((- u) ^ 2) with (u ^ 2) in Hb by ring.
      replace ((- fst (Nat.iter k (turn (5 / 100)) (- u, v))) ^ 2)
        with (fst (Nat.iter k (turn (5 / 100)) (- u, v)) ^ 2) by ring.
      done.
    + intros. lra.
Qed.

(** A step of the horizontal phase turns [(x - centerX, z)] and leaves [y]. *)
Lemma rotatePoint_X (cX cY d : R) (p : SkyPoint.t) :
  rotatePoint cX cY d 0 p
  = SkyPoint.mk (fst (turn d (SkyPoint.x p - cX, SkyPoint.z p)) + cX)
                (SkyPoint.y p)
                (snd (turn d (SkyPoint.x p - cX, SkyPoint.z p)))
                (SkyPoint.data p).
Proof.
  unfold rotatePoint, turn. cbn [fst snd]. rewrite sin_0, cos_0.
  f_equal; ring.
Qed.

(** A step of the vertical phase turns [(- y + centerY, z)] and leaves [x]. *)
Lemma rotatePoint_Y (cX cY d : R) (p : SkyPoint.t) :
  rotatePoint cX cY 0 (- d) p
  = SkyPoint.mk (SkyPoint.x p)
                (cY - fst (turn d (- SkyPoint.y p + cY, SkyPoint.z p)))
                (snd (turn d (- SkyPoint.y p + cY, SkyPoint.z p)))
                (SkyPoint.data p).
Proof.
  unfold rotatePoint, turn. cbn [fst snd].
  rewrite sin_0, cos_0, sin_neg, cos_neg.
  f_equal; ring.
Qed.

Lemma iter_rotatePoint_X (cX cY d : R) (p : SkyPoint.t) (j : nat) :
  Nat.iter j (rotatePoint cX cY d 0) p
  = SkyPoint.mk
      (fst (Nat.iter j (turn d) (SkyPoint.x p - cX, SkyPoint.z p)) + cX)
      (SkyPoint.y p)
      (snd (Nat.iter j (turn d) (SkyPoint.x p - cX, SkyPoint.z p)))
      (SkyPoint.data p).
Proof.
  induction j as [|j IH].
  - destruct p. simpl. f_equal. ring.
  - change (Nat.iter (S j) (rotatePoint cX cY d 0) p)
      with (rotatePoint cX cY d 0 (Nat.iter j (rotatePoint cX cY d 0) p)).
    rewrite IH, rotatePoint_X. cbn [SkyPoint.x SkyPoint.y SkyPoint.z SkyPoint.data].
    change (Nat.iter (S j) (turn d) (SkyPoint.x p - cX, SkyPoint.z p))
      with (turn d (Nat.iter j (turn d) (SkyPoint.x p - cX, SkyPoint.z p))).
    destruct (Nat.iter j (turn d) (SkyPoint.x p - cX, SkyPoint.z p)) as [a b].
    cbn [fst snd]. replace (a + cX - cX) with a by ring. done.
Qed.

Lemma iter_rotatePoint_Y (cX cY d : R) (p : SkyPoint.t) (j : nat) :
  Nat.iter j (rotatePoint cX cY 0 (- d)) p
  = SkyPoint.mk
      (SkyPoint.x p)
      (cY - fst (Nat.iter j (turn d) (- SkyPoint.y p + cY, SkyPoint.z p)))
      (snd (Nat.iter j (turn d) (- SkyPoint.y p + cY, SkyPoint.z p)))
      (SkyPoint.data p).
Proof.
  induction j as [|j IH].
  - destruct p. simpl. f_equal. ring.
  - change (Nat.iter (S j) (rotatePoint cX cY 0 (- d)) p)
      with (rotatePoint cX cY 0 (- d) (Nat.iter j (rotatePoint cX cY 0 (- d)) p)).
    rewrite IH, rotatePoint_Y. cbn [SkyPoint.x SkyPoint.y SkyPoint.z SkyPoint.data].
    change (Nat.iter (S j) (turn d) (- SkyPoint.y p + cY, SkyPoint.z p))
      with (turn d (Nat.iter j (turn d) (- SkyPoint.y p + cY, SkyPoint.z p))).
    destruct (Nat.iter j (turn d) (- SkyPoint.y p + cY, SkyPoint.z p)) as [a b].
    cbn [fst snd]. replace (- (cY - a) + cY) with a by ring. done.
Qed.

(** A rotation of the instance on an object its collections hold once. *)
Lemma rotateXY_tracked (dy dx : R) (this : Sphere.t) (st : Store) (r : ref)
    (p : SkyPoint.t) :
  heap st !! r = Some p ->
  visits st r = 1%nat ->
  heap (rotateXY dy dx this st) !! r
  = Some (rotatePoint (Sphere.containerWidth this / 2)
                      (Sphere.containerHeight this / 2) dy dx p)
  /\ visits (rotateXY dy dx this st) r = 1%nat.
Proof.
  intros Hp Hv. unfold rotateXY. split.
  - by rewrite applyTransform_lookup, Hv, Hp.
  - done.
Qed.

(** The timer of the horizontal phase fires [k] times while the test holds. *)
Lemma phaseX_steps (c : Centering) (this : Sphere.t) (q : SkyPoint.t) (k : nat) :
  centerX c = Sphere.containerWidth this / 2 ->
  centerY c = Sphere.containerHeight this / 2 ->
  forall st : Store,
  heap st !! skyPoint c = Some q ->
  visits st (skyPoint c) = 1%nat ->
  (forall j, (j < k)%nat ->
     keepMoving (dx c)
       (SkyPoint.x (Nat.iter j (rotatePoint (centerX c) (centerY c) (dx c) 0) q)
        - centerX c) = true) ->
  exists st',
    Nat.iter k (tick c) (mkAnim this st (Some CenteringXTimeout))
    = mkAnim this st' (Some CenteringXTimeout)
    /\ heap st' !! skyPoint c
       = Some (Nat.iter k (rotatePoint (centerX c) (centerY c) (dx c) 0) q)
    /\ visits st' (skyPoint c) = 1%nat.
Proof.
  intros HcX HcY. induction k as [|k IH]; intros st Hq Hv Hkeep.
  - exists st. by repeat split.
  - destruct (IH st Hq Hv) as (st' & Hrun & Hq' & Hv').
    { intros j Hj. apply Hkeep. lia. }
    change (Nat.iter (S k) (tick c) (mkAnim this st (Some CenteringXTimeout)))
      with (tick c (Nat.iter k (tick c) (mkAnim this st (Some CenteringXTimeout)))).
    rewrite Hrun. unfold tick, moveXUntilCenter. cbn [pending store sphere].
    rewrite Hq'. fold (keepMoving (dx c)
      (SkyPoint.x (Nat.iter k (rotatePoint (centerX c) (centerY c) (dx c) 0) q)
       - centerX c)).
    rewrite (Hkeep k) by lia.
    destruct (rotateXY_tracked (dx c) 0 this st' (skyPoint c) _ Hq' Hv') as [Hr Hv''].
    eexists. split; [reflexivity|]. split; [|done].
    rewrite Hr, <- HcX, <- HcY. done.
Qed.

(** The timer of the vertical phase fires [k] times while the test holds. *)
Lemma phaseY_steps (c : Centering) (this : Sphere.t) (q : SkyPoint.t) (k : nat) :
  centerX c = Sphere.containerWidth this / 2 ->
  centerY c = Sphere.containerHeight this / 2 ->
  forall st : Store,
  heap st !! skyPoint c = Some q ->
  visits st (skyPoint c) = 1%nat ->
  (forall j, (j < k)%nat ->
     keepMoving (dy c)
       (- SkyPoint.y (Nat.iter j (rotatePoint (centerX c) (centerY c) 0 (- dy c)) q)
        + centerY c) = true) ->
  exists st',
    Nat.iter k (tick c) (mkAnim this st (Some CenteringYTimeout))
    = mkAnim this st' (Some CenteringYTimeout)
    /\ heap st' !! skyPoint c
       = Some (Nat.iter k (rotatePoint (centerX c) (centerY c) 0 (- dy c)) q)
    /\ visits st' (skyPoint c) = 1%nat.
Proof.
  intros HcX HcY. induction k as [|k IH]; intros st Hq Hv Hkeep.
  - exists st. by repeat split.
  - destruct (IH st Hq Hv) as (st' & Hrun & Hq' & Hv').
    { intros j Hj. apply Hkeep. lia. }
    change (Nat.iter (S k) (tick c) (mkAnim this st (Some CenteringYTimeout)))
      with (tick c (Nat.iter k (tick c) (mkAnim this st (Some CenteringYTimeout)))).
    rewrite Hrun. unfold tick, moveYUntilCenter. cbn [pending store sphere].
    rewrite Hq'. fold (keepMoving (dy c)
      (- SkyPoint.y (Nat.iter k (rotatePoint (centerX c) (centerY c) 0 (- dy c)) q)
       + centerY c)).
    rewrite (Hkeep k) by lia.
    destruct (rotateXY_tracked 0 (- dy c) this st' (skyPoint c) _ Hq' Hv') as [Hr Hv''].
    eexists. split; [reflexivity|]. split; [|done].
    rewrite Hr, <- HcX, <- HcY. done.
Qed.

(** When their test fails, [moveXUntilCenter] hands over to
    [moveYUntilCenter], and [moveYUntilCenter] ends the animation. *)
Lemma moveXUntilCenter_done (c : Centering) (a : Anim) (q : SkyPoint.t) :
  heap (store a) !! skyPoint c = Some q ->
  keepMoving (dx c) (SkyPoint.x q - centerX c) = false ->
  moveXUntilCenter c a = moveYUntilCenter c a.
Proof.
  intros Hq Hstop. unfold moveXUntilCenter. rewrite Hq.
  fold (keepMoving (dx c) (SkyPoint.x q - centerX c)). by rewrite Hstop.
Qed.

Lemma moveYUntilCenter_done (c : Centering) (a : Anim) (q : SkyPoint.t) :
  heap (store a) !! skyPoint c = Some q ->
  keepMoving (dy c) (- SkyPoint.y q + centerY c) = false ->
  moveYUntilCenter c a
  = mkAnim (Sphere.setIsMoving false (sphere a)) (store a) None.
Proof.
  intros Hq Hstop. unfold moveYUntilCenter. rewrite Hq.
  fold (keepMoving (dy c) (- SkyPoint.y q + centerY c)). by rewrite Hstop.
Qed.

(** Neither callback reads which timer is pending. *)
Lemma moveXUntilCenter_pending (c : Centering) (this : Sphere.t) (st : Store)
    (t1 t2 : option Timer) (q : SkyPoint.t) :
  heap st !! skyPoint c = Some q ->
  moveXUntilCenter c (mkAnim this st t1) = moveXUntilCenter c (mkAnim this st t2).
Proof.
  intros Hq. unfold moveXUntilCenter, moveYUntilCenter. cbn [store sphere].
  by rewrite Hq.
Qed.

Lemma moveYUntilCenter_pending (c : Centering) (this : Sphere.t) (st : Store)
    (t1 t2 : option Timer) (q : SkyPoint.t) :
  heap st !! skyPoint c = Some q ->
  moveYUntilCenter c (mkAnim this st t1) = moveYUntilCenter c (mkAnim this st t2).
Proof.
  intros Hq. unfold moveYUntilCenter. cbn [store sphere]. by rewrite Hq.
Qed.

Lemma direction_x (x cX : R) :
  (if Rlt_b x cX then 5 / 100 else - (5 / 100)) = direction (x - cX).
Proof.
  unfold direction, Rlt_b.
  destruct (Rlt_dec x cX), (Rlt_dec (x - cX) 0); try done; lra.
Qed.

Lemma direction_y (y cY : R) :
  (if Rlt_b cY y then 5 / 100 else - (5 / 100)) = direction (- y + cY).
Proof.
  unfold direction, Rlt_b.
  destruct (Rlt_dec cY y), (Rlt_dec (- y + cY) 0); try done; lra.
Qed.

Lemma direction_cases (u : R) :
  direction u = 5 / 100 \/ direction u = - (5 / 100).
Proof. unfold direction. destruct (Rlt_b u 0); auto. Qed.

Lemma normSq_nonneg (cX cY : R) (p : SkyPoint.t) : 0 <= normSq cX cY p.
Proof.
  unfold normSq.
  assert (H1 := pow2_ge_0 (SkyPoint.x p - cX)).
  assert (H2 := pow2_ge_0 (SkyPoint.y p - cY)).
  assert (H3 := pow2_ge_0 (SkyPoint.z p)). lra.
Qed.

Lemma Rabs_le_sqrt (a N s : R) :
  0 <= s -> 0 <= N -> a ^ 2 <= N * s ^ 2 -> Rabs a <= sqrt N * s.
Proof.
  intros Hs HN Hle.
  rewrite <- (sqrt_Rsqr_abs a), <- (sqrt_pow2 s Hs) at 1.
  rewrite <- sqrt_mult_alt by done.
  apply sqrt_le_1_alt. unfold Rsqr. lra.
Qed.

(** C6 (as stated, refuted): a point object the collections of the instance
    do not hold is not moved by [rotateXY]; when it lies left of the center
    the horizontal phase rotates for ever: after any number of timer firings
    a timer is pending and [isMoving] is [true]. *)
Lemma centerSkyPoint_untracked_never_ends :
  let this := initSphere (Options.mk None None None false) in
  let st := mkStore [SkyPoint.mk 0 200 0 None] [] [] [] in
  exists c a0,
    centerSkyPoint this st 0%nat = Some (c, a0)
    /\ forall n,
         pending (Nat.iter n (tick c) a0) = Some CenteringXTimeout
         /\ Sphere.isMoving (sphere (Nat.iter n (tick c) a0)) = true.
Proof.
  intros this st.
  set (c := mkCentering 0%nat (400 / 2) (400 / 2) (5 / 100) (- (5 / 100))).
  set (this' := Sphere.setIsMoving true this).
  assert (Hmove : forall t, moveXUntilCenter c (mkAnim this' st t)
                            = mkAnim this' st (Some CenteringXTimeout)).
  { intros t. unfold moveXUntilCenter. cbn.
    rewrite Req_b_false by lra.
    rewrite (Rlt_b_true 0 (5 / 100)) by lra.
    rewrite (Rlt_b_true (0 - 400 / 2) 0) by lra.
    reflexivity. }
  exists c, (mkAnim this' st (Some CenteringXTimeout)). split.
  - unfold centerSkyPoint.
    change (heap st !! 0%nat) with (Some (SkyPoint.mk 0 200 0 None)).
    cbv [mbind option_bind SkyPoint.x SkyPoint.y].
    change (Sphere.containerWidth this) with 400.
    change (Sphere.containerHeight this) with 400.
    rewrite (Rlt_b_true 0 (400 / 2)) by lra.
    rewrite (Rlt_b_false (400 / 2) 200) by lra.
    fold c this'. by rewrite Hmove.
  - intros n.
    assert (Hn : Nat.iter n (tick c) (mkAnim this' st (Some CenteringXTimeout))
                 = mkAnim this' st (Some CenteringXTimeout)).
    { induction n as [|n IH]; [done|].
      change (Nat.iter (S n) (tick c) (mkAnim this' st (Some CenteringXTimeout)))
        with (tick c (Nat.iter n (tick c) (mkAnim this' st (Some CenteringXTimeout)))).
      rewrite IH. unfold tick. cbn [pending]. apply Hmove. }
    rewrite Hn. by split.
Qed.

(** C6 (amended): for a target that is an object the collections of the
    instance hold (once), and the timers firing with no other call in
    between, the animation ends: [kx <= 63] steps [rotateXY(dx, 0)] then
    [ky <= 63] steps [rotateXY(0, -dy)], [dx] and [dy] being [0.05] or
    [-0.05]; a timer is pending until [kx + ky] timers have fired, then none
    is, [isMoving] is [false], and the [x] and [y] of the point are each within
    [N * sin 0.05] of the center, [N] its distance to the center; a
    coordinate at the center on entry to a phase makes the phase fall through
    with no rotation. *)
Theorem centerSkyPoint_terminates (this : Sphere.t) (st : Store) (r : ref)
    (pt : SkyPoint.t) :
  heap st !! r = Some pt ->
  visits st r = 1%nat ->
  let cX := Sphere.containerWidth this / 2 in
  let cY := Sphere.containerHeight this / 2 in
  exists (c : Centering) (a0 : Anim) (kx ky : nat),
    centerSkyPoint this st r = Some (c, a0)
    /\ (dx c = 5 / 100 \/ dx c = - (5 / 100))
    /\ (dy c = 5 / 100 \/ dy c = - (5 / 100))
    /\ (kx <= 63)%nat /\ (ky <= 63)%nat
    /\ let rotX := rotatePoint cX cY (dx c) 0 in
       let rotY := rotatePoint cX cY 0 (- dy c) in
       let pt' := Nat.iter ky rotY (Nat.iter kx rotX pt) in
       let a := Nat.iter (kx + ky) (tick c) a0 in
       (SkyPoint.x pt = cX -> kx = 0%nat)
       /\ (SkyPoint.y (Nat.iter kx rotX pt) = cY -> ky = 0%nat)
       /\ (forall n, (n < kx + ky)%nat -> pending (Nat.iter n (tick c) a0) <> None)
       /\ pending a = None
       /\ Sphere.isMoving (sphere a) = false
       /\ heap (store a) !! r = Some pt'
       /\ Rabs (SkyPoint.x pt' - cX) <= sqrt (normSq cX cY pt) * sin (5 / 100)
       /\ Rabs (SkyPoint.y pt' - cY) <= sqrt (normSq cX cY pt) * sin (5 / 100).
Proof.
  intros Hpt Hv cX cY.
  set (this' := Sphere.setIsMoving true this).
  set (c := mkCentering r cX cY (direction (SkyPoint.x pt - cX))
                        (direction (- SkyPoint.y pt + cY))).
  assert (HcX : centerX c = Sphere.containerWidth this' / 2) by done.
  assert (HcY : centerY c = Sphere.containerHeight this' / 2) by done.
  (* the horizontal phase *)
  destruct (turn_stops (SkyPoint.x pt - cX) (SkyPoint.z pt))
    as (kx & Hkx & HkeepX & HstopX & HboundX & HzeroX).
  set (qA := Nat.iter kx (rotatePoint cX cY (dx c) 0) pt).
  assert (HqA : qA = SkyPoint.mk
            (fst (Nat.iter kx (turn (dx c)) (SkyPoint.x pt - cX, SkyPoint.z pt)) + cX)
            (SkyPoint.y pt)
            (snd (Nat.iter kx (turn (dx c)) (SkyPoint.x pt - cX, SkyPoint.z pt)))
            (SkyPoint.data pt)).
  { unfold qA. apply iter_rotatePoint_X. }
  destruct (phaseX_steps c this' pt kx HcX HcY st Hpt Hv) as (stA & HrunA & HlookA & HvA).
  { intros j Hj. change (centerX c) with cX. change (centerY c) with cY.
    rewrite iter_rotatePoint_X. cbn [SkyPoint.x].
    match goal with |- keepMoving _ ?e = _ =>
      replace e with (fst (Nat.iter j (turn (dx c))
                             (SkyPoint.x pt - cX, SkyPoint.z pt))) by ring end.
    by apply HkeepX. }
  fold qA in HlookA.
  assert (HstopA : keepMoving (dx c) (SkyPoint.x qA - centerX c) = false).
  { rewrite HqA. change (centerX c) with cX. cbn [SkyPoint.x].
    match goal with |- keepMoving _ ?e = _ =>
      replace e with (fst (Nat.iter kx (turn (dx c))
                             (SkyPoint.x pt - cX, SkyPoint.z pt))) by ring end.
    exact HstopX. }
  (* the vertical phase *)
  assert (HyA : SkyPoint.y qA = SkyPoint.y pt) by (by rewrite HqA).
  destruct (turn_stops (- SkyPoint.y pt + cY) (SkyPoint.z qA))
    as (ky & Hky & HkeepY & HstopY & HboundY & HzeroY).
  set (qB := Nat.iter ky (rotatePoint cX cY 0 (- dy c)) qA).
  assert (HqB : qB = SkyPoint.mk
            (SkyPoint.x qA)
            (cY - fst (Nat.iter ky (turn (dy c)) (- SkyPoint.y pt + cY, SkyPoint.z qA)))
            (snd (Nat.iter ky (turn (dy c)) (- SkyPoint.y pt + cY, SkyPoint.z qA)))
            (SkyPoint.data qA)).
  { unfold qB. rewrite iter_rotatePoint_Y. by rewrite HyA. }
  destruct (phaseY_steps c this' qA ky HcX HcY stA HlookA HvA)
    as (stB & HrunB & HlookB & HvB).
  { intros j Hj. change (centerX c) with cX. change (centerY c) with cY.
    rewrite iter_rotatePoint_Y, HyA. cbn [SkyPoint.y].
    match goal with |- keepMoving _ ?e = _ =>
      replace e with (fst (Nat.iter j (turn (dy c))
                             (- SkyPoint.y pt + cY, SkyPoint.z qA))) by ring end.
    by apply HkeepY. }
  fold qB in HlookB.
  assert (HstopB : keepMoving (dy c) (- SkyPoint.y qB + centerY c) = false).
  { rewrite HqB. change (centerY c) with cY. cbn [SkyPoint.y].
    match goal with |- keepMoving _ ?e = _ =>
      replace e with (fst (Nat.iter ky (turn (dy c))
                             (- SkyPoint.y pt + cY, SkyPoint.z qA))) by ring end.
    exact HstopY. }
  (* the run *)
  set (a0 := moveXUntilCenter c (mkAnim this' st None)).
  assert (HchainX : forall n,
            Nat.iter n (tick c) a0
            = Nat.iter (S n) (tick c) (mkAnim this' st (Some CenteringXTimeout))).
  { intros n. unfold a0.
    rewrite (moveXUntilCenter_pending c this' st None (Some CenteringXTimeout) pt Hpt).
    change (moveXUntilCenter c (mkAnim this' st (Some CenteringXTimeout)))
      with (tick c (mkAnim this' st (Some CenteringXTimeout))).
    by rewrite <- Nat.iter_succ_r. }
  assert (HchainY : forall m,
            Nat.iter (kx + m) (tick c) a0
            = Nat.iter (S m) (tick c) (mkAnim this' stA (Some CenteringYTimeout))).
  { intros m. rewrite Nat.add_comm, Nat.iter_add, HchainX.
    change (Nat.iter (S kx) (tick c) (mkAnim this' st (Some CenteringXTimeout)))
      with (tick c (Nat.iter kx (tick c) (mkAnim this' st (Some CenteringXTimeout)))).
    rewrite HrunA. unfold tick at 2. cbn [pending].
    rewrite (moveXUntilCenter_done c _ qA) by done.
    rewrite (moveYUntilCenter_pending c this' stA _ (Some CenteringYTimeout) qA HlookA).
    change (moveYUntilCenter c (mkAnim this' stA (Some CenteringYTimeout)))
      with (tick c (mkAnim this' stA (Some CenteringYTimeout))).
    by rewrite <- Nat.iter_succ_r. }
  assert (Hrun : Nat.iter (kx + ky) (tick c) a0
                 = mkAnim (Sphere.setIsMoving false this') stB None).
  { rewrite HchainY.
    change (Nat.iter (S ky) (tick c) (mkAnim this' stA (Some CenteringYTimeout)))
      with (tick c (Nat.iter ky (tick c) (mkAnim this' stA (Some CenteringYTimeout)))).
    rewrite HrunB. unfold tick. cbn [pending].
    by rewrite (moveYUntilCenter_done c _ qB). }
  assert (Hbusy : forall n, (n < kx + ky)%nat ->
                    pending (Nat.iter n (tick c) a0) <> None).
  { intros n Hn. destruct (Nat.lt_ge_cases n kx) as [Hlt|Hge].
    - rewrite HchainX.
      destruct (phaseX_steps c this' pt (S n) HcX HcY st Hpt Hv) as (st1 & -> & _).
      { intros j Hj. change (centerX c) with cX. change (centerY c) with cY.
        rewrite iter_rotatePoint_X. cbn [SkyPoint.x].
        match goal with |- keepMoving _ ?e = _ =>
          replace e with (fst (Nat.iter j (turn (dx c))
                                 (SkyPoint.x pt - cX, SkyPoint.z pt))) by ring end.
        apply HkeepX. lia. }
      done.
    - replace n with (kx + (n - kx))%nat by lia. rewrite HchainY.
      destruct (phaseY_steps c this' qA (S (n - kx)) HcX HcY stA HlookA HvA)
        as (st1 & -> & _).
      { intros j Hj. change (centerX c) with cX. change (centerY c) with cY.
        rewrite iter_rotatePoint_Y, HyA. cbn [SkyPoint.y].
        match goal with |- keepMoving _ ?e = _ =>
          replace e with (fst (Nat.iter j (turn (dy c))
                                 (- SkyPoint.y pt + cY, SkyPoint.z qA))) by ring end.
        apply HkeepY. lia. }
      done. }
  (* the bounds *)
  assert (Hsin : 0 <= sin (5 / 100)) by (generalize sin_step_pos; lra).
  assert (HN := normSq_nonneg cX cY pt).
  assert (HnA : normSq cX cY qA = normSq cX cY pt).
  { unfold qA. apply iter_rotatePoint_normSq. }
  assert (HbX : Rabs (SkyPoint.x qB - cX) <= sqrt (normSq cX cY pt) * sin (5 / 100)).
  { apply Rabs_le_sqrt; [done|done|].
    rewrite HqB, HqA. cbn [SkyPoint.x].
    match goal with |- ?e ^ 2 <= _ =>
      replace e with (fst (Nat.iter kx (turn (dx c))
                             (SkyPoint.x pt - cX, SkyPoint.z pt))) by ring end.
    eapply Rle_trans; [exact HboundX|].
    apply Rmult_le_compat_r; [apply pow2_ge_0|].
    unfold normSq. assert (H := pow2_ge_0 (SkyPoint.y pt - cY)). lra. }
  assert (HbY : Rabs (SkyPoint.y qB - cY) <= sqrt (normSq cX cY pt) * sin (5 / 100)).
  { apply Rabs_le_sqrt; [done|done|].
    rewrite HqB. cbn [SkyPoint.y].
    match goal with |- ?e ^ 2 <= _ =>
      replace (e ^ 2) with (fst (Nat.iter ky (turn (dy c))
                             (- SkyPoint.y pt + cY, SkyPoint.z qA)) ^ 2) by ring end.
    eapply Rle_trans; [exact HboundY|].
    apply Rmult_le_compat_r; [apply pow2_ge_0|].
    rewrite <- HnA. unfold normSq. rewrite HyA.
    assert (H := pow2_ge_0 (SkyPoint.x qA - cX)).
    replace ((SkyPoint.y pt - cY) ^ 2) with ((- SkyPoint.y pt + cY) ^ 2) by ring.
    lra. }
  exists c, a0, kx, ky.
  split.
  { unfold centerSkyPoint. rewrite Hpt. cbv [mbind option_bind].
    fold cX cY. rewrite direction_x, direction_y. done. }
  split; [apply direction_cases|]. split; [apply direction_cases|].
  split; [done|]. split; [done|].
  cbv zeta. fold qA. fold qB. rewrite Hrun. cbn [pending sphere store].
  split; [intros Hx; apply HzeroX; lra|].
  split; [intros Hy; apply HzeroY; rewrite <- HyA; lra|].
  split; [exact Hbusy|].
  by repeat split.
Qed.

Lemma centerSkyPoint_terminates_witness :
  let this := initSphere (Options.mk None None None false) in
  let st := mkStore [SkyPoint.mk 0 200 0 None] [] [] [0%nat] in
  heap st !! 0%nat = Some (SkyPoint.mk 0 200 0 None)
  /\ visits st 0%nat = 1%nat
  /\ exists (c : Centering) (a0 : Anim) (kx ky : nat),
       centerSkyPoint this st 0%nat = Some (c, a0)
       /\ (kx <= 63)%nat /\ (ky <= 63)%nat
       /\ pending (Nat.iter (kx + ky) (tick c) a0) = None
       /\ Sphere.isMoving (sphere (Nat.iter (kx + ky) (tick c) a0)) = false.
Proof.
  intros this st.
  assert (Hp : heap st !! 0%nat = Some (SkyPoint.mk 0 200 0 None)) by reflexivity.
  assert (Hv : visits st 0%nat = 1%nat) by reflexivity.
  destruct (centerSkyPoint_terminates this st 0%nat _ Hp Hv)
    as (c & a0 & kx & ky & Hc & _ & _ & Hkx & Hky & _ & _ & _ & Hpend & Hmov & _).
  split; [exact Hp|]. split; [exact Hv|].
  exists c, a0, kx, ky. exact (conj Hc (conj Hkx (conj Hky (conj Hpend Hmov)))).
Defined.

(** * Further properties *)

(** ** Transformations of a well formed store *)

Ltac wf_example :=
  intros [|?r]; unfold visits, trackedRefs, oneObjectStore; simpl; lia.

Lemma store_ext (st1 st2 : Store) :
  (forall i : nat, heap st1 !! i = heap st2 !! i) ->
  starLines st1 = starLines st2 ->
  starPoints st1 = starPoints st2 ->
  objectPoints st1 = objectPoints st2 ->
  st1 = st2.
Proof.
  destruct st1, st2; simpl. intros Hh -> -> ->. f_equal. by apply list_eq.
Qed.

Lemma visits_applyTransform (f : SkyPoint.t -> SkyPoint.t) (st : Store) (r : ref) :
  visits (applyTransform f st) r = visits st r.
Proof. done. Qed.

Lemma applyTransform_ext (f g : SkyPoint.t -> SkyPoint.t) (st : Store) :
  (forall p, f p = g p) -> applyTransform f st = applyTransform g st.
Proof.
  intros Hfg. apply store_ext; try done. intros i.
  rewrite !applyTransform_lookup. destruct (heap st !! i) as [p|]; [|done].
  simpl. f_equal. induction (visits st i) as [|n IH]; simpl; [done|].
  by rewrite IH, Hfg.
Qed.

Lemma applyTransform_compose (f g : SkyPoint.t -> SkyPoint.t) (st : Store) :
  wfStore st ->
  applyTransform g (applyTransform f st) = applyTransform (fun p => g (f p)) st.
Proof.
  intros Hwf. apply store_ext; try done. intros i.
  rewrite !applyTransform_lookup, visits_applyTransform.
  destruct (Hwf i) as [Hle _].
  destruct (heap st !! i) as [p|]; [|done].
  destruct (visits st i) as [|[|n]]; simpl; [done|done|lia].
Qed.

Lemma rotatePoint_split (cX cY dy dx : R) (p : SkyPoint.t) :
  rotatePoint cX cY 0 dx (rotatePoint cX cY dy 0 p) = rotatePoint cX cY dy dx p.
Proof. unfold rotatePoint; simpl. rewrite sin_0, cos_0. f_equal; ring. Qed.

Lemma rotatePoint_pitch_add (cX cY a b : R) (p : SkyPoint.t) :
  rotatePoint cX cY b 0 (rotatePoint cX cY a 0 p) = rotatePoint cX cY (a + b) 0 p.
Proof.
  unfold rotatePoint; simpl. rewrite sin_0, cos_0, sin_plus, cos_plus.
  f_equal; ring.
Qed.

Lemma rotatePoint_yaw_add (cX cY a b : R) (p : SkyPoint.t) :
  rotatePoint cX cY 0 b (rotatePoint cX cY 0 a p) = rotatePoint cX cY 0 (a + b) p.
Proof.
  unfold rotatePoint; simpl. rewrite sin_0, cos_0, sin_plus, cos_plus.
  f_equal; ring.
Qed.

Lemma rotatePoint_zero (cX cY : R) (p : SkyPoint.t) :
  rotatePoint cX cY 0 0 p = p.
Proof.
  destruct p. unfold rotatePoint; simpl. rewrite sin_0, cos_0. f_equal; ring.
Qed.

(** X1: on a well formed store, [rotateXY(dy, dx)] is [rotateXY(dy, 0)]
    followed by [rotateXY(0, dx)]. *)
Theorem rotateXY_split (dy dx : R) (this : Sphere.t) (st : Store) :
  wfStore st ->
  rotateXY 0 dx this (rotateXY dy 0 this st) = rotateXY dy dx this st.
Proof.
  intros Hwf. unfold rotateXY. rewrite applyTransform_compose by done.
  apply applyTransform_ext. intros p. apply rotatePoint_split.
Qed.

Lemma rotateXY_split_witness :
  let this := initSphere (Options.mk None None None false) in
  wfStore oneObjectStore
  /\ rotateXY 0 2 this (rotateXY 1 0 this oneObjectStore)
     = rotateXY 1 2 this oneObjectStore.
Proof.
  intros this.
  assert (Hwf : wfStore oneObjectStore) by wf_example.
  exact (conj Hwf (rotateXY_split 1 2 this oneObjectStore Hwf)).
Defined.

(** X2: on a well formed store, two rotations about the same screen axis add
    up: [rotateXY(a, 0)] then [rotateXY(b, 0)] is [rotateXY(a + b, 0)], and
    [rotateXY(0, a)] then [rotateXY(0, b)] is [rotateXY(0, a + b)]. *)
Theorem rotateXY_add (a b : R) (this : Sphere.t) (st : Store) :
  wfStore st ->
  rotateXY b 0 this (rotateXY a 0 this st) = rotateXY (a + b) 0 this st
  /\ rotateXY 0 b this (rotateXY 0 a this st) = rotateXY 0 (a + b) this st.
Proof.
  intros Hwf. unfold rotateXY. rewrite !applyTransform_compose by done.
  split; apply applyTransform_ext; intros p.
  - apply rotatePoint_pitch_add.
  - apply rotatePoint_yaw_add.
Qed.

Lemma rotateXY_add_witness :
  let this := initSphere (Options.mk None None None false) in
  wfStore oneObjectStore
  /\ rotateXY 2 0 this (rotateXY 1 0 this oneObjectStore)
     = rotateXY (1 + 2) 0 this oneObjectStore.
Proof.
  intros this.
  assert (Hwf : wfStore oneObjectStore) by wf_example.
  exact (conj Hwf (proj1 (rotateXY_add 1 2 this oneObjectStore Hwf))).
Defined.

Lemma rotateXY_zero (this : Sphere.t) (st : Store) : rotateXY 0 0 this st = st.
Proof. unfold rotateXY. apply applyTransform_id. intros p. apply rotatePoint_zero. Qed.

(** X3: on a well formed store, [rotateXY(dy, dx)] is undone by
    [rotateXY(0, -dx)] followed by [rotateXY(-dy, 0)]: every point is back
    where it was. *)
Theorem rotateXY_undo (dy dx : R) (this : Sphere.t) (st : Store) :
  wfStore st ->
  rotateXY (- dy) 0 this (rotateXY 0 (- dx) this (rotateXY dy dx this st)) = st.
Proof.
  intros Hwf.
  assert (Hwf1 : wfStore (rotateXY dy 0 this st)) by (by apply wfStore_applyTransform).
  rewrite <- (rotateXY_split dy dx this st Hwf).
  rewrite (proj2 (rotateXY_add dx (- dx) this _ Hwf1)).
  replace (dx + - dx) with 0 by ring. rewrite rotateXY_zero.
  rewrite (proj1 (rotateXY_add dy (- dy) this st Hwf)).
  replace (dy + - dy) with 0 by ring. apply rotateXY_zero.
Qed.

Lemma rotateXY_undo_witness :
  let this := initSphere (Options.mk None None None false) in
  wfStore oneObjectStore
  /\ rotateXY (- 1) 0 this (rotateXY 0 (- 2) this (rotateXY 1 2 this oneObjectStore))
     = oneObjectStore.
Proof.
  intros this.
  assert (Hwf : wfStore oneObjectStore) by wf_example.
  exact (conj Hwf (rotateXY_undo 1 2 this oneObjectStore Hwf)).
Defined.

Lemma zoom_store (f : R) (this : Sphere.t) (st : Store) :
  snd (zoom f this st)
  = applyTransform (zoomPoint (Sphere.containerWidth this / 2)
                              (Sphere.containerHeight this / 2) f) st.
Proof. done. Qed.

Lemma zoom_container (f : R) (this : Sphere.t) (st : Store) :
  Sphere.containerWidth (fst (zoom f this st)) = Sphere.containerWidth this
  /\ Sphere.containerHeight (fst (zoom f this st)) = Sphere.containerHeight this.
Proof. unfold zoom; simpl. by destruct (trackedRefs st). Qed.

Lemma zoomPoint_compose (cX cY f1 f2 : R) (p : SkyPoint.t) :
  zoomPoint cX cY f2 (zoomPoint cX cY f1 p) = zoomPoint cX cY (f1 * f2) p.
Proof. unfold zoomPoint; simpl. f_equal; ring. Qed.

Lemma zoomPoint_rotatePoint (cX cY f dy dx : R) (p : SkyPoint.t) :
  zoomPoint cX cY f (rotatePoint cX cY dy dx p)
  = rotatePoint cX cY dy dx (zoomPoint cX cY f p).
Proof. unfold zoomPoint, rotatePoint; simpl. f_equal; ring. Qed.

(** X4: on a well formed store, [zoom(f1)] followed by [zoom(f2)] leaves
    every point where a single [zoom(f1 * f2)] puts it. *)
Theorem zoom_compose (f1 f2 : R) (this : Sphere.t) (st : Store) :
  wfStore st ->
  snd (zoom f2 (fst (zoom f1 this st)) (snd (zoom f1 this st)))
  = snd (zoom (f1 * f2) this st).
Proof.
  intros Hwf. rewrite !zoom_store.
  destruct (zoom_container f1 this st) as [-> ->].
  rewrite applyTransform_compose by done.
  apply applyTransform_ext. intros p. apply zoomPoint_compose.
Qed.

Lemma zoom_compose_witness :
  let this := initSphere (Options.mk None None None false) in
  wfStore oneObjectStore
  /\ snd (zoom 3 (fst (zoom 2 this oneObjectStore)) (snd (zoom 2 this oneObjectStore)))
     = snd (zoom (2 * 3) this oneObjectStore).
Proof.
  intros this.
  assert (Hwf : wfStore oneObjectStore) by wf_example.
  exact (conj Hwf (zoom_compose 2 3 this oneObjectStore Hwf)).
Defined.



(** X6: on a well formed store, zooming and rotating commute: [rotateXY]
    then [zoom] leaves every point where [zoom] then [rotateXY] does. *)
Theorem zoom_rotateXY_commute (f dy dx : R) (this : Sphere.t) (st : Store) :
  wfStore st ->
  snd (zoom f this (rotateXY dy dx this st))
  = rotateXY dy dx (fst (zoom f this st)) (snd (zoom f this st)).
Proof.
  intros Hwf. rewrite !zoom_store. unfold rotateXY.
  destruct (zoom_container f this st) as [-> ->].
  rewrite !applyTransform_compose by done.
  apply applyTransform_ext. intros p. apply zoomPoint_rotatePoint.
Qed.

Lemma zoom_rotateXY_commute_witness :
  let this := initSphere (Options.mk None None None false) in
  wfStore oneObjectStore
  /\ snd (zoom 2 this (rotateXY 1 3 this oneObjectStore))
     = rotateXY 1 3 (fst (zoom 2 this oneObjectStore))
                (snd (zoom 2 this oneObjectStore)).
Proof.
  intros this.
  assert (Hwf : wfStore oneObjectStore) by wf_example.
  exact (conj Hwf (zoom_rotateXY_commute 2 1 3 this oneObjectStore Hwf)).
Defined.

Lemma iter_zoomPoint_z (n : nat) (cX cY f : R) (p : SkyPoint.t) :
  SkyPoint.z (Nat.iter n (zoomPoint cX cY f) p) = f ^ n * SkyPoint.z p.
Proof.
  induction n as [|n IH]; simpl; [ring|]. rewrite IH. ring.
Qed.

(** X7: a zoom by a positive factor never changes the side of the sphere a
    point object is on: its [z] is positive, or zero, after the zoom exactly
    when it was before. *)
Theorem zoom_keeps_side (f : R) (this : Sphere.t) (st : Store) (r : ref)
    (p : SkyPoint.t) :
  0 < f ->
  heap st !! r = Some p ->
  exists p', heap (snd (zoom f this st)) !! r = Some p'
             /\ (0 < SkyPoint.z p' <-> 0 < SkyPoint.z p)
             /\ (SkyPoint.z p' = 0 <-> SkyPoint.z p = 0).
Proof.
  intros Hf Hp. rewrite zoom_store, applyTransform_lookup, Hp. simpl.
  eexists. split; [reflexivity|]. rewrite iter_zoomPoint_z.
  assert (Hpow : 0 < f ^ visits st r) by (by apply pow_lt).
  split; split; intros H; nra.
Qed.

Lemma zoom_keeps_side_witness :
  let this := initSphere (Options.mk None None None false) in
  0 < 2 /\ heap oneObjectStore !! 0%nat = Some (SkyPoint.mk 1 2 3 None)
  /\ exists p', heap (snd (zoom 2 this oneObjectStore)) !! 0%nat = Some p'
                /\ (0 < SkyPoint.z p' <-> 0 < 3)
                /\ (SkyPoint.z p' = 0 <-> 3 = 0).
Proof.
  intros this.
  assert (H2 : 0 < 2) by lra.
  assert (Hp : heap oneObjectStore !! 0%nat = Some (SkyPoint.mk 1 2 3 None))
    by reflexivity.
  exact (conj H2 (conj Hp (zoom_keeps_side 2 this oneObjectStore 0%nat _ H2 Hp))).
Defined.

(** ** Resizing *)

(** X8: on a well formed store, [setContainerSize(width, height, false)]
    keeps the radius and moves every object of the collections by half the
    change of width and of height, so that its position relative to the middle
    of the container is what it was. *)
Theorem setContainerSize_translates (width height : R)
    (paddingPercentage : option R) (this : Sphere.t) (st : Store)
    (r : ref) (p : SkyPoint.t) :
  wfStore st ->
  In r (trackedRefs st) ->
  heap st !! r = Some p ->
  let s' := setContainerSize width height false paddingPercentage this st in
  Sphere.radius (fst s') = Sphere.radius this
  /\ exists p',
       heap (snd s') !! r = Some p'
       /\ SkyPoint.x p' = SkyPoint.x p + (width - Sphere.containerWidth this) / 2
       /\ SkyPoint.y p' = SkyPoint.y p + (height - Sphere.containerHeight this) / 2
       /\ SkyPoint.z p' = SkyPoint.z p
       /\ SkyPoint.x p' - Sphere.containerWidth (fst s') / 2
          = SkyPoint.x p - Sphere.containerWidth this / 2
       /\ SkyPoint.y p' - Sphere.containerHeight (fst s') / 2
          = SkyPoint.y p - Sphere.containerHeight this / 2.
Proof.
  intros Hwf Hin Hp s'. split; [done|].
  unfold s', setContainerSize. cbn [fst snd].
  rewrite applyTransform_lookup, (wfStore_visits st r Hwf Hin), Hp. simpl.
  eexists. split; [reflexivity|]. simpl. repeat split; lra.
Qed.

Lemma setContainerSize_translates_witness :
  let this := initSphere (Options.mk None None None false) in
  let s' := setContainerSize 600 500 false None this oneObjectStore in
  wfStore oneObjectStore
  /\ In 0%nat (trackedRefs oneObjectStore)
  /\ heap oneObjectStore !! 0%nat = Some (SkyPoint.mk 1 2 3 None)
  /\ Sphere.radius (fst s') = Sphere.radius this
  /\ exists p',
       heap (snd s') !! 0%nat = Some p'
       /\ SkyPoint.x p' = 1 + (600 - Sphere.containerWidth this) / 2.
Proof.
  intros this s'.
  assert (Hwf : wfStore oneObjectStore) by wf_example.
  assert (Hin : In 0%nat (trackedRefs oneObjectStore)) by (simpl; auto).
  assert (Hp : heap oneObjectStore !! 0%nat = Some (SkyPoint.mk 1 2 3 None))
    by reflexivity.
  destruct (setContainerSize_translates 600 500 None this oneObjectStore 0%nat _
              Hwf Hin Hp) as (Hr & p' & Hp' & Hx & _).
  exact (conj Hwf (conj Hin (conj Hp (conj Hr
           (ex_intro _ p' (conj Hp' Hx)))))).
Defined.





(** ** The points stay on the sphere *)

(** X11: the point [generateSkyPoint] makes is at distance [radius] from the
    middle of the container, whatever the angles. *)
Theorem generateSkyPoint_on_sphere (this : Sphere.t) (ra dec : R) (data : JsVal) :
  normSq (Sphere.containerWidth this / 2) (Sphere.containerHeight this / 2)
         (generateSkyPoint this ra dec data)
  = Sphere.radius this ^ 2.
Proof.
  assert (Ha : sin ra * sin ra + cos ra * cos ra = 1).
  { generalize (sin2_cos2 ra). unfold Rsqr. lra. }
  assert (Hd : sin dec * sin dec + cos dec * cos dec = 1).
  { generalize (sin2_cos2 dec). unfold Rsqr. lra. }
  unfold normSq, generateSkyPoint; simpl.
  set (r := Sphere.radius this).
  transitivity (r * r * (sin dec * sin dec * (sin ra * sin ra + cos ra * cos ra)
                         + cos dec * cos dec)); [ring|].
  rewrite Ha, Rmult_1_r, Hd. ring.
Qed.

Lemma zoomPoint_normSq (cX cY f : R) (p : SkyPoint.t) :
  normSq cX cY (zoomPoint cX cY f p) = f ^ 2 * normSq cX cY p.
Proof. unfold normSq, zoomPoint; simpl. ring. Qed.

Lemma wfStore_tracked_lt (st : Store) (r : ref) :
  wfStore st -> In r (trackedRefs st) -> (r < length (heap st))%nat.
Proof.
  intros Hwf Hin. destruct (Hwf r) as [_ H0].
  apply (count_occ_In Nat.eq_dec) in Hin. unfold visits in H0.
  destruct (Nat.lt_ge_cases r (length (heap st))) as [Hlt|Hge]; [done|].
  specialize (H0 Hge). lia.
Qed.

Lemma onSphere_rotateXY (dy dx : R) (this : Sphere.t) (st : Store) :
  onSphere this st -> onSphere this (rotateXY dy dx this st).
Proof.
  intros Hon r p' Hin Hp'. unfold rotateXY in Hp'.
  rewrite applyTransform_lookup in Hp'.
  destruct (heap st !! r) as [p|] eqn:Hp; [|done].
  injection Hp' as <-. rewrite iter_rotatePoint_normSq. by apply (Hon r).
Qed.

Lemma onSphere_zoom (f : R) (this : Sphere.t) (st : Store) :
  wfStore st -> onSphere this st ->
  onSphere (fst (zoom f this st)) (snd (zoom f this st)).
Proof.
  intros Hwf Hon r p' Hin Hp'.
  destruct (zoom_container f this st) as [-> ->].
  rewrite zoom_radius. rewrite zoom_store in Hin, Hp'.
  rewrite applyTransform_lookup, (wfStore_visits st r Hwf Hin) in Hp'.
  destruct (heap st !! r) as [p|] eqn:Hp; [|done].
  injection Hp' as <-. simpl. rewrite zoomPoint_normSq, (Hon r p Hin Hp). ring.
Qed.

Lemma wfStore_zoom (f : R) (this : Sphere.t) (st : Store) :
  wfStore st -> wfStore (snd (zoom f this st)).
Proof. intros Hwf. rewrite zoom_store. by apply wfStore_applyTransform. Qed.

Lemma setContainerSize_no_resize (width height : R) (padding : option R)
    (this : Sphere.t) (st : Store) :
  wfStore st -> onSphere this st ->
  wfStore (snd (setContainerSize width height false padding this st))
  /\ onSphere (fst (setContainerSize width height false padding this st))
              (snd (setContainerSize width height false padding this st)).
Proof.
  intros Hwf Hon. unfold setContainerSize. cbn [fst snd].
  split; [by apply wfStore_applyTransform|].
  intros r p' Hin Hp'.
  rewrite applyTransform_lookup, (wfStore_visits st r Hwf Hin) in Hp'.
  destruct (heap st !! r) as [p|] eqn:Hp; [|done].
  injection Hp' as <-.
  cbn [Nat.iter nat_rect Sphere.radius Sphere.containerWidth Sphere.containerHeight].
  rewrite <- (Hon r p Hin Hp).
  unfold normSq, translatePoint. cbn [SkyPoint.x SkyPoint.y SkyPoint.z]. field.
Qed.

Lemma setContainerSize_cases (width height : R) (resize : bool)
    (padding : option R) (this : Sphere.t) (st : Store) :
  let s1 := setContainerSize width height false padding this st in
  setContainerSize width height resize padding this st
  = if resize
    then zoom (Rmin width height * orElse padding (9 / 10)
               / (2 * Sphere.radius (fst s1))) (fst s1) (snd s1)
    else s1.
Proof. by destruct resize. Qed.

Lemma onSphere_addCustomObject (ra dec : R) (data : JsVal) (this : Sphere.t)
    (st : Store) :
  wfStore st -> onSphere this st ->
  onSphere this (snd (addCustomObject ra dec data this st)).
Proof.
  intros Hwf Hon r p' Hin Hp'. unfold addCustomObject, alloc in *.
  cbn [snd heap] in Hp'.
  assert (Hcase : In r (trackedRefs st) \/ r = length (heap st)).
  { unfold trackedRefs in *. cbn [snd starLines starPoints objectPoints] in Hin.
    rewrite !in_app_iff in Hin. rewrite !in_app_iff.
    destruct Hin as [H|[H|[H|[H|[]]]]]; auto. }
  destruct Hcase as [Hold| ->].
  - rewrite lookup_app_l in Hp' by (by apply wfStore_tracked_lt).
    by apply (Hon r).
  - rewrite lookup_app_r, Nat.sub_diag in Hp' by done. injection Hp' as <-.
    apply generateSkyPoint_on_sphere.
Qed.

Lemma onSphere_extend (this : Sphere.t) (st st' : Store) (ps : list SkyPoint.t) :
  wfStore st -> onSphere this st ->
  heap st' = heap st ++ ps ->
  (forall p, In p ps ->
     normSq (Sphere.containerWidth this / 2) (Sphere.containerHeight this / 2) p
     = Sphere.radius this ^ 2) ->
  (forall r, In r (trackedRefs st') ->
     In r (trackedRefs st) \/ (length (heap st) <= r)%nat) ->
  onSphere this st'.
Proof.
  intros Hwf Hon Hheap Hps Hrefs r p' Hin Hp'. rewrite Hheap in Hp'.
  destruct (Hrefs r Hin) as [Hold|Hnew].
  - rewrite lookup_app_l in Hp' by (by apply wfStore_tracked_lt).
    by apply (Hon r).
  - rewrite lookup_app_r in Hp' by done.
    apply Hps. apply list_elem_of_In. by eapply list_elem_of_lookup_2.
Qed.

Lemma onSphere_generateStarPoints (this : Sphere.t) (stars : list (R * R))
    (st : Store) :
  wfStore st -> onSphere this st ->
  onSphere this (generateStarPoints this stars st).
Proof.
  revert st; induction stars as [|star stars IH]; intros st Hwf Hon; simpl; [done|].
  apply IH; [by apply wfStore_pushStarPoint|].
  eapply (onSphere_extend this st _ [_]); try done.
  - intros p [<-|[]]. apply generateSkyPoint_on_sphere.
  - intros r. unfold trackedRefs. cbn [starLines starPoints objectPoints].
    rewrite !in_app_iff. intros [H|[[H|[<-|[]]]|H]]; auto.
Qed.

Lemma onSphere_generateStarLines (this : Sphere.t) (stars : list (R * R))
    (lines : list (nat * nat)) (st st' : Store) :
  wfStore st -> onSphere this st ->
  generateStarLines this stars lines st = Some st' ->
  onSphere this st'.
Proof.
  revert st; induction lines as [|[i1 i2] lines IH]; intros st Hwf Hon; simpl.
  - by intros [= <-].
  - destruct (stars !! i1) as [star1|]; [|done].
    destruct (stars !! i2) as [star2|]; [|done].
    apply IH; [by apply wfStore_pushStarLine|].
    eapply (onSphere_extend this st _ [_; _]); try done.
    + cbn [heap]. by rewrite <- app_assoc.
    + intros p [<-|[<-|[]]]; apply generateSkyPoint_on_sphere.
    + intros r. unfold trackedRefs. cbn [starLines starPoints objectPoints].
      rewrite flat_map_app, !in_app_iff. cbn [flat_map skyPoint1 skyPoint2 app].
      rewrite length_app. simpl.
      intros [[H|[<-|[<-|[]]]]|[H|H]]; auto; right; lia.
Qed.

Lemma call_keeps_sphere (s : Sphere.t * Store) (c : Call) :
  wfStore (snd s) -> onSphere (fst s) (snd s) ->
  wfStore (snd (call s c)) /\ onSphere (fst (call s c)) (snd (call s c)).
Proof.
  intros Hwf Hon. destruct c as [dy dx|f|k|w h resize padding|ra dec data];
    cbn [call].
  - split; [by apply wfStore_applyTransform | by apply onSphere_rotateXY].
  - split; [by apply wfStore_zoom | by apply onSphere_zoom].
  - unfold absoluteZoom. split; [by apply wfStore_zoom | by apply onSphere_zoom].
  - destruct (setContainerSize_no_resize w h padding (fst s) (snd s) Hwf Hon)
      as [Hwf1 Hon1].
    rewrite setContainerSize_cases. destruct resize; [|done].
    split; [by apply wfStore_zoom | by apply onSphere_zoom].
  - cbn [fst snd].
    split; [by apply wfStore_addCustomObject | by apply onSphere_addCustomObject].
Qed.

(** X12: on a single instance, every star, line end and custom object lies
    on the sphere the instance draws, from construction on and after any
    sequence of rotations, zooms, absolute zooms, resizes and additions of
    objects (none dividing by a zero radius): its squared distance to the
    middle of the container is the square of the radius; and the store stays
    well formed. *)
Theorem points_stay_on_sphere (c : Constellations.t) (o : Options.t)
    (this : Sphere.t) (st : Store) (cs : list Call) :
  SkySphere c o emptyStore = Some (this, st) ->
  callsDefined cs (this, st) ->
  wfStore (snd (calls cs (this, st)))
  /\ onSphere (fst (calls cs (this, st))) (snd (calls cs (this, st))).
Proof.
  intros Hnew _.
  assert (Hinit : wfStore st /\ onSphere this st).
  { split; [by eapply wfStore_SkySphere; [apply wfStore_empty|]|].
    unfold SkySphere in Hnew.
    destruct (generateStarLines _ _ _ emptyStore) as [st1|] eqn:Hl; [|done].
    simpl in Hnew. injection Hnew as <- <-.
    assert (Hwf1 : wfStore st1)
      by (by eapply wfStore_generateStarLines; [apply wfStore_empty|]).
    apply onSphere_generateStarPoints; [done|].
    eapply onSphere_generateStarLines; [apply wfStore_empty| |exact Hl].
    intros r p []. }
  assert (Hgen : forall s,
            wfStore (snd s) /\ onSphere (fst s) (snd s) ->
            wfStore (snd (calls cs s))
            /\ onSphere (fst (calls cs s)) (snd (calls cs s))).
  { unfold calls. induction cs as [|c' cs IH]; intros s [Hwf Hon]; simpl;
      [by split|].
    apply IH. by apply call_keeps_sphere. }
  by apply (Hgen (this, st)).
Qed.

Lemma points_stay_on_sphere_witness :
  let c := Constellations.mk [(0%nat, 1%nat)] [(0, 0); (1, 1)] in
  let o := Options.mk None None None false in
  let cs := [CallRotateXY 1 2; CallZoom 3; CallAddCustomObject 1 2 JUndefined;
             CallSetContainerSize 600 500 false None; CallAbsoluteZoom 2] in
  exists this st,
    SkySphere c o emptyStore = Some (this, st)
    /\ callsDefined cs (this, st)
    /\ wfStore (snd (calls cs (this, st)))
    /\ onSphere (fst (calls cs (this, st))) (snd (calls cs (this, st))).
Proof.
  intros c o cs. eexists _, _. split; [reflexivity|].
  match goal with
  | |- callsDefined _ ?s /\ _ => assert (Hdef : callsDefined cs s)
  end.
  { cbn [callsDefined cs call fst snd setContainerSize].
    repeat split. rewrite zoom_radius. simpl. rewrite Rmin_400. lra. }
  exact (conj Hdef (points_stay_on_sphere c o _ _ cs eq_refl Hdef)).
Defined.

(** ** Construction *)



Lemma generateStarLines_effect (this : Sphere.t) (stars : list (R * R))
    (lines : list (nat * nat)) (st st' : Store) :
  generateStarLines this stars lines st = Some st' ->
  exists hs ls,
    heap st' = heap st ++ hs /\ length hs = (2 * length lines)%nat
    /\ starLines st' = starLines st ++ ls /\ length ls = length lines
    /\ starPoints st' = starPoints st /\ objectPoints st' = objectPoints st.
Proof.
  revert st; induction lines as [|[i1 i2] lines IH]; intros st; simpl.
  - intros [= <-]. exists [], []. by rewrite !app_nil_r.
  - destruct (stars !! i1) as [star1|]; [|done].
    destruct (stars !! i2) as [star2|]; [|done].
    intros H. destruct (IH _ H) as (hs & ls & Hh & Hlh & Hl & Hll & Hs & Ho).
    cbn [heap starLines starPoints objectPoints] in *.
    eexists (_ :: _ :: hs), (_ :: ls).
    rewrite Hh, Hl, <- !app_assoc. simpl. repeat split; try done; lia.
Qed.

Lemma generateStarPoints_effect (this : Sphere.t) (stars : list (R * R))
    (st : Store) :
  exists hs ss,
    heap (generateStarPoints this stars st) = heap st ++ hs
    /\ length hs = length stars
    /\ starPoints (generateStarPoints this stars st) = starPoints st ++ ss
    /\ length ss = length stars
    /\ starLines (generateStarPoints this stars st) = starLines st
    /\ objectPoints (generateStarPoints this stars st) = objectPoints st.
Proof.
  revert st; induction stars as [|star stars IH]; intros st; simpl.
  - exists [], []. by rewrite !app_nil_r.
  - destruct (IH (mkStore (heap st ++ [generateSkyPoint this (fst star) (snd star) JUndefined])
                          (starLines st) (starPoints st ++ [length (heap st)])
                          (objectPoints st)))
      as (hs & ss & Hh & Hlh & Hs & Hls & Hl & Ho).
    cbn [heap starLines starPoints objectPoints] in *.
    eexists (_ :: hs), (_ :: ss).
    rewrite Hh, Hs, <- !app_assoc. simpl. repeat split; try done; lia.
Qed.

(** X14: a successful construction only appends: the objects, lines and
    star points that were in the store are still there, in place; two objects
    per constellation line and one per star are added to the heap, one line
    per constellation line to [starLines] and one reference per star to
    [starPoints]; [objectPoints] is untouched. *)
Theorem SkySphere_appends (c : Constellations.t) (o : Options.t)
    (st : Store) (this : Sphere.t) (st' : Store) :
  SkySphere c o st = Some (this, st') ->
  this = initSphere o
  /\ exists hs ls ss,
       heap st' = heap st ++ hs
       /\ length hs = (2 * length (Constellations.l c)
                       + length (Constellations.s c))%nat
       /\ starLines st' = starLines st ++ ls
       /\ length ls = length (Constellations.l c)
       /\ starPoints st' = starPoints st ++ ss
       /\ length ss = length (Constellations.s c)
       /\ objectPoints st' = objectPoints st.
Proof.
  unfold SkySphere.
  destruct (generateStarLines _ _ _ st) as [st1|] eqn:Hl; simpl; [|done].
  intros [= <- <-]. split; [done|].
  destruct (generateStarLines_effect _ _ _ _ _ Hl)
    as (hs1 & ls & Hh1 & Hlh1 & Hl1 & Hll & Hs1 & Ho1).
  destruct (generateStarPoints_effect (initSphere o) (Constellations.s c) st1)
    as (hs2 & ss & Hh2 & Hlh2 & Hs2 & Hls & Hl2 & Ho2).
  exists (hs1 ++ hs2), ls, ss.
  rewrite Hh2, Hh1, Hs2, Hs1, Hl2, Hl1, Ho2, Ho1, <- app_assoc, length_app.
  repeat split; try done; lia.
Qed.

Lemma SkySphere_appends_witness :
  let c := Constellations.mk [(0%nat, 1%nat)] [(0, 0); (1, 1)] in
  let o := Options.mk None None None false in
  exists this st',
    SkySphere c o oneObjectStore = Some (this, st')
    /\ exists hs ls ss,
         heap st' = heap oneObjectStore ++ hs /\ length hs = 4%nat
         /\ starLines st' = ls /\ length ls = 1%nat
         /\ starPoints st' = ss /\ length ss = 2%nat
         /\ objectPoints st' = [0%nat].
Proof.
  intros c o. eexists _, _. split; [reflexivity|].
  destruct (SkySphere_appends c o oneObjectStore _ _ eq_refl)
    as (_ & hs & ls & ss & H1 & H2 & H3 & H4 & H5 & H6 & H7).
  exists hs, ls, ss. exact (conj H1 (conj H2 (conj H3 (conj H4 (conj H5 (conj H6 H7)))))).
Defined.



(** ** Where a custom object starts *)



(** ** Dragging *)

Lemma last_cons_default (l : list R) (a d1 d2 : R) :
  List.last (a :: l) d1 = List.last (a :: l) d2.
Proof.
  revert a; induction l as [|b l IH]; intros a; [done|].
  change (List.last (b :: l) d1 = List.last (b :: l) d2). apply IH.
Qed.

Lemma drag_positions (moves : list (R * R)) (this : Sphere.t) (s : Drag * Store) :
  let d := fst (drag moves this s) in
  startX d = startX (fst s) /\ startY d = startY (fst s)
  /\ clickX d = clickX (fst s) /\ clickY d = clickY (fst s)
  /\ prevX d = List.last (map fst moves) (prevX (fst s))
  /\ prevY d = List.last (map snd moves) (prevY (fst s)).
Proof.
  revert s. induction moves as [|m moves IH]; intros s; [done|].
  unfold drag in *. cbn [fold_left].
  destruct (IH (onMove (fst m) (snd m) this s)) as (H1 & H2 & H3 & H4 & H5 & H6).
  cbv zeta. rewrite H1, H2, H3, H4, H5, H6. cbn [onMove fst startX startY clickX
    clickY prevX prevY map].
  repeat split; try done.
  - destruct moves as [|m' moves]; [done|].
    change (List.last (map fst (m' :: moves)) (fst m)
            = List.last (map fst (m' :: moves)) (prevX (fst s))).
    apply last_cons_default.
  - destruct moves as [|m' moves]; [done|].
    change (List.last (map snd (m' :: moves)) (snd m)
            = List.last (map snd (m' :: moves)) (prevY (fst s))).
    apply last_cons_default.
Qed.

(** X17: on an instance whose radius is not zero, a gesture is taken for a
    click by its last position alone.  When the
    pointer is released where it was pressed, and a [customOnClick] is given,
    [stopMove] runs the hit test at the press position, on the points as the
    moves in between have rotated them; when it is released anywhere else, or
    no callback is given, nothing is selected. *)
Theorem click_iff_released_at_start (area clientX clientY left top : R)
    (moves : list (R * R)) (this : Sphere.t) (st : Store) :
  Sphere.radius this <> 0 ->
  let this1 := snd (startMove clientX clientY left top this) in
  let s := drag moves this1 (fst (startMove clientX clientY left top this), st) in
  let lastX := List.last (map fst moves) clientX in
  let lastY := List.last (map snd moves) clientY in
  (lastX = clientX -> lastY = clientY ->
   Options.customOnClick (Sphere.options this) = true ->
   snd (stopMove area (fst s) this1 (snd s))
   = hitTest area (clientX - left) (clientY - top)
             (heap (snd s)) (objectPoints (snd s)))
  /\ (lastX <> clientX \/ lastY <> clientY
      \/ Options.customOnClick (Sphere.options this) = false ->
      snd (stopMove area (fst s) this1 (snd s)) = Normal None).
Proof.
  intros _ this1 s lastX lastY.
  destruct (drag_positions moves this1
              (fst (startMove clientX clientY left top this), st))
    as (H1 & H2 & H3 & H4 & H5 & H6).
  fold s in H1, H2, H3, H4, H5, H6. cbn [startMove fst startX startY clickX
    clickY prevX prevY] in H1, H2, H3, H4, H5, H6.
  fold lastX in H5. fold lastY in H6.
  unfold stopMove. rewrite H1, H2, H3, H4, H5, H6.
  change (Sphere.options this1) with (Sphere.options this).
  split.
  - intros Hx Hy Hc. by rewrite !Req_b_true, Hc.
  - intros [Hx|[Hy|Hc]].
    + by rewrite (Req_b_false _ _ Hx).
    + rewrite (Req_b_false lastY _ Hy). by rewrite andb_false_r.
    + rewrite Hc. by rewrite andb_false_r.
Qed.

Lemma click_iff_released_at_start_witness :
  let this := initSphere (Options.mk None None None true) in
  let this1 := snd (startMove 10 20 0 0 this) in
  let s := drag [(30, 20); (10, 20)] this1
                (fst (startMove 10 20 0 0 this), oneObjectStore) in
  Sphere.radius this <> 0
  /\ List.last (map fst [(30, 20); (10, 20)]) 10 = 10
  /\ List.last (map snd [(30, 20); (10, 20)]) 20 = 20
  /\ Options.customOnClick (Sphere.options this) = true
  /\ snd (stopMove 6 (fst s) this1 (snd s))
     = hitTest 6 (10 - 0) (20 - 0) (heap (snd s)) (objectPoints (snd s)).
Proof.
  intros this this1 s.
  assert (Hr : Sphere.radius this <> 0).
  { unfold this, initSphere; simpl. rewrite Rmin_400. lra. }
  exact (conj Hr (conj eq_refl (conj eq_refl (conj eq_refl
    (proj1 (click_iff_released_at_start 6 10 20 0 0 [(30, 20); (10, 20)]
              this oneObjectStore Hr) eq_refl eq_refl eq_refl))))).
Defined.

(** X18: on a well formed store and an instance whose radius is not zero,
    two moves of the pointer along the same screen axis turn the sky as the
    single move to the last position does. *)
Theorem onMove_same_axis (x1 x2 y1 y2 : R) (this : Sphere.t) (d : Drag)
    (st : Store) :
  wfStore st ->
  Sphere.radius this <> 0 ->
  onMove x2 (prevY d) this (onMove x1 (prevY d) this (d, st))
  = onMove x2 (prevY d) this (d, st)
  /\ onMove (prevX d) y2 this (onMove (prevX d) y1 this (d, st))
     = onMove (prevX d) y2 this (d, st).
Proof.
  intros Hwf Hr. unfold onMove. cbn [fst snd startX startY prevX prevY clickX clickY].
  split; f_equal.
  - replace ((prevY d - prevY d) / Sphere.radius this) with 0 by (by field).
    rewrite (proj1 (rotateXY_add _ _ this st Hwf)). f_equal. by field.
  - replace ((prevX d - prevX d) / Sphere.radius this) with 0 by (by field).
    rewrite (proj2 (rotateXY_add _ _ this st Hwf)). f_equal. by field.
Qed.

Lemma onMove_same_axis_witness :
  let this := initSphere (Options.mk None None None false) in
  let d := mkDrag 10 20 10 20 10 20 in
  wfStore oneObjectStore /\ Sphere.radius this <> 0
  /\ onMove 50 (prevY d) this (onMove 30 (prevY d) this (d, oneObjectStore))
     = onMove 50 (prevY d) this (d, oneObjectStore).
Proof.
  intros this d.
  assert (Hwf : wfStore oneObjectStore) by wf_example.
  assert (Hr : Sphere.radius this <> 0).
  { unfold this, initSphere; simpl. rewrite Rmin_400. lra. }
  exact (conj Hwf (conj Hr
    (proj1 (onMove_same_axis 30 50 0 0 this d oneObjectStore Hwf Hr)))).
Defined.

(** ** Drawing *)

Lemma tracked_live (st : Store) (r : ref) :
  wfStore st -> In r (trackedRefs st) -> is_Some (heap st !! r).
Proof.
  intros Hwf Hin. apply lookup_lt_is_Some. by apply wfStore_tracked_lt.
Qed.

Lemma starLine_tracked (st : Store) (ln : StarLine) :
  In ln (starLines st) ->
  In (skyPoint1 ln) (trackedRefs st) /\ In (skyPoint2 ln) (trackedRefs st).
Proof.
  intros Hin. unfold trackedRefs. rewrite !in_app_iff, !in_flat_map.
  split; left; exists ln; simpl; auto.
Qed.

Lemma starPoint_tracked (st : Store) (r : ref) :
  In r (starPoints st) -> In r (trackedRefs st).
Proof. intros Hin. unfold trackedRefs. rewrite !in_app_iff. auto. Qed.

Lemma objectPoint_tracked (st : Store) (r : ref) :
  In r (objectPoints st) -> In r (trackedRefs st).
Proof. intros Hin. unfold trackedRefs. rewrite !in_app_iff. auto. Qed.

Lemma getProp_throws (v : JsVal) (k : string) :
  getProp v k = TypeError <-> v = JUndefined \/ v = JNull.
Proof. destruct v; simpl; split; intros H; auto; try done; by destruct H. Qed.

Lemma drawStarLines_normal (h : list SkyPoint.t) (lines : list StarLine) :
  (forall ln, In ln lines ->
     is_Some (h !! skyPoint1 ln) /\ is_Some (h !! skyPoint2 ln)) ->
  snd (drawStarLines h lines) = Normal tt.
Proof.
  induction lines as [|ln lines IH]; intros Hlive; simpl; [done|].
  destruct (Hlive ln) as [[p1 ->] [p2 ->]]; [by left|]. simpl.
  apply IH. intros ln' Hin. apply Hlive. by right.
Qed.

Lemma drawStarPoints_normal (h : list SkyPoint.t) (stars : list ref) :
  (forall r, In r stars -> is_Some (h !! r)) ->
  snd (drawStarPoints h stars) = Normal tt.
Proof.
  induction stars as [|r stars IH]; intros Hlive; simpl; [done|].
  destruct (Hlive r) as [p ->]; [by left|]. simpl.
  apply IH. intros r' Hin. apply Hlive. by right.
Qed.

Lemma drawObjectPoints_throws_iff (h : list SkyPoint.t) (objs : list ref) :
  (forall r, In r objs -> is_Some (h !! r)) ->
  snd (drawObjectPoints h objs) = TypeError
  <-> exists r p, In r objs /\ h !! r = Some p /\ SkyPoint.z p >= 0
                  /\ (SkyPoint.getData p = JUndefined
                      \/ SkyPoint.getData p = JNull).
Proof.
  induction objs as [|r objs IH]; intros Hlive; simpl.
  - split; [done|]. by intros (r & p & [] & _).
  - destruct (Hlive r) as [p Hp]; [by left|]. rewrite Hp.
    assert (IH' := IH (fun r' Hin => Hlive r' (or_intror Hin))).
    unfold Rge_b. destruct (Rge_dec (SkyPoint.z p) 0) as [Hz|Hz].
    + destruct (getProp (SkyPoint.getData p) "color") as [color|] eqn:Hc.
      * assert (Hr : exists radius,
                  getProp (SkyPoint.getData p) "radius" = Normal radius).
        { destruct (SkyPoint.getData p); try done; by eexists. }
        destruct Hr as [radius ->]. simpl. rewrite IH'. split.
        -- intros (r' & p' & Hin & Hrest). exists r', p'. split; [by right|done].
        -- intros (r' & p' & [<-|Hin] & Hp' & Hz' & Hd).
           ++ rewrite Hp in Hp'. injection Hp' as <-.
              apply (getProp_throws _ "color") in Hd. by rewrite Hd in Hc.
           ++ by exists r', p'.
      * simpl. split; [|done]. intros _. exists r, p.
        split; [by left|]. split; [done|]. split; [done|].
        by apply (getProp_throws _ "color").
    + rewrite IH'. split.
      * intros (r' & p' & Hin & Hrest). exists r', p'. split; [by right|done].
      * intros (r' & p' & [<-|Hin] & Hp' & Hz' & Hd).
        -- rewrite Hp in Hp'. by injection Hp' as <-.
        -- by exists r', p'.
Qed.

Lemma drawSky_completion (backgroundColor : JsVal) (this : Sphere.t) (st : Store) :
  wfStore st ->
  snd (drawSky backgroundColor this st)
  = snd (drawObjectPoints (heap st) (objectPoints st)).
Proof.
  intros Hwf. unfold drawSky.
  rewrite drawStarLines_normal, drawStarPoints_normal; [done| |].
  - intros r Hin. apply tracked_live; [done|]. by apply starPoint_tracked.
  - intros ln Hin. destruct (starLine_tracked st ln Hin).
    split; by apply tracked_live.
Qed.

(** X19: on a well formed store, [drawSky] throws exactly when some custom
    object that faces the viewer ([z >= 0]) has no [data] (or [null] for
    data); stars, lines and objects behind the sphere never make it throw. *)
Theorem drawSky_throws_iff (backgroundColor : JsVal) (this : Sphere.t)
    (st : Store) :
  wfStore st ->
  snd (drawSky backgroundColor this st) = TypeError
  <-> exists r p,
        In r (objectPoints st) /\ heap st !! r = Some p /\ SkyPoint.z p >= 0
        /\ (SkyPoint.getData p = JUndefined \/ SkyPoint.getData p = JNull).
Proof.
  intros Hwf. rewrite drawSky_completion by done.
  apply drawObjectPoints_throws_iff.
  intros r Hin. apply tracked_live; [done|]. by apply objectPoint_tracked.
Qed.

Lemma drawSky_throws_iff_witness :
  let this := initSphere (Options.mk None None None false) in
  wfStore oneObjectStore
  /\ (snd (drawSky JUndefined this oneObjectStore) = TypeError
      <-> exists r p,
            In r (objectPoints oneObjectStore)
            /\ heap oneObjectStore !! r = Some p /\ SkyPoint.z p >= 0
            /\ (SkyPoint.getData p = JUndefined \/ SkyPoint.getData p = JNull)).
Proof.
  intros this.
  assert (Hwf : wfStore oneObjectStore) by wf_example.
  exact (conj Hwf (drawSky_throws_iff JUndefined this oneObjectStore Hwf)).
Defined.

Lemma drawStarLines_only_front (h : list SkyPoint.t) (lines : list StarLine)
    (cmd : DrawCmd) :
  In cmd (fst (drawStarLines h lines)) ->
  exists ln p1 p2,
    In ln lines /\ h !! skyPoint1 ln = Some p1 /\ h !! skyPoint2 ln = Some p2
    /\ 0 < SkyPoint.z p1 /\ 0 < SkyPoint.z p2
    /\ cmd = Segment (floor (SkyPoint.x p1)) (floor (SkyPoint.y p1))
                     (floor (SkyPoint.x p2)) (floor (SkyPoint.y p2)).
Proof.
  induction lines as [|ln lines IH]; simpl; [done|].
  destruct (h !! skyPoint1 ln) as [p1|] eqn:H1; [|done].
  destruct (h !! skyPoint2 ln) as [p2|] eqn:H2; [|done].
  simpl. rewrite in_app_iff. intros [Hin|Hin].
  - unfold Rlt_b in Hin.
    destruct (Rlt_dec 0 (SkyPoint.z p1)), (Rlt_dec 0 (SkyPoint.z p2));
      simpl in Hin; try done.
    destruct Hin as [<-|[]]. exists ln, p1, p2. repeat split; auto.
  - destruct (IH Hin) as (ln' & q1 & q2 & Hin' & Hrest).
    exists ln', q1, q2. split; [by right|done].
Qed.

Lemma drawStarPoints_only_front (h : list SkyPoint.t) (stars : list ref)
    (cmd : DrawCmd) :
  In cmd (fst (drawStarPoints h stars)) ->
  exists r p,
    In r stars /\ h !! r = Some p /\ SkyPoint.z p >= 0
    /\ cmd = Dot (floor (SkyPoint.x p)) (floor (SkyPoint.y p)) (JNum 2).
Proof.
  induction stars as [|r stars IH]; simpl; [done|].
  destruct (h !! r) as [p|] eqn:Hp; [|done].
  simpl. rewrite in_app_iff. intros [Hin|Hin].
  - unfold Rge_b in Hin. destruct (Rge_dec (SkyPoint.z p) 0); simpl in Hin; [|done].
    destruct Hin as [<-|[]]. exists r, p. repeat split; auto.
  - destruct (IH Hin) as (r' & q & Hin' & Hrest).
    exists r', q. split; [by right|done].
Qed.

Lemma drawObjectPoints_only_front (h : list SkyPoint.t) (objs : list ref)
    (x y : Z) (radius : JsVal) :
  In (Dot x y radius) (fst (drawObjectPoints h objs)) ->
  exists r p,
    In r objs /\ h !! r = Some p /\ SkyPoint.z p >= 0
    /\ x = floor (SkyPoint.x p) /\ y = floor (SkyPoint.y p).
Proof.
  induction objs as [|r objs IH]; simpl; [done|].
  destruct (h !! r) as [p|] eqn:Hp; [|done].
  unfold Rge_b. destruct (Rge_dec (SkyPoint.z p) 0) as [Hz|Hz].
  - destruct (getProp (SkyPoint.getData p) "color"); [|done].
    destruct (getProp (SkyPoint.getData p) "radius"); [|done].
    simpl. intros [Hin|[Hin|Hin]]; [done| |].
    + injection Hin as <- <- <-. exists r, p. repeat split; auto.
    + destruct (IH Hin) as (r' & q & Hin' & Hrest).
      exists r', q. split; [by right|done].
  - intros Hin. destruct (IH Hin) as (r' & q & Hin' & Hrest).
    exists r', q. split; [by right|done].
Qed.

Lemma drawSky_parts (backgroundColor : JsVal) (this : Sphere.t) (st : Store)
    (cmd : DrawCmd) :
  In cmd (fst (drawSky backgroundColor this st)) ->
  (exists w h, cmd = ClearRect w h) \/ (exists v, cmd = FillStyle v)
  \/ (exists v, cmd = StrokeStyle v) \/ (exists x y r, cmd = Outline x y r)
  \/ In cmd (fst (drawStarLines (heap st) (starLines st)))
  \/ In cmd (fst (drawStarPoints (heap st) (starPoints st)))
  \/ In cmd (fst (drawObjectPoints (heap st) (objectPoints st))).
Proof.
  unfold drawSky.
  destruct (snd (drawStarLines (heap st) (starLines st)));
    [destruct (snd (drawStarPoints (heap st) (starPoints st)))|];
    cbn [fst]; rewrite ?in_app_iff; simpl; rewrite ?in_app_iff;
    intros H; decompose [or] H; subst; eauto 10; done.
Qed.

(** X20: [drawSky] draws nothing that is behind the sphere: every line it
    strokes is a constellation line whose two ends have [z > 0], and every
    dot it fills is a star point or a custom object with [z >= 0]; both are
    drawn at the floor of the coordinates of the points. *)
Theorem drawSky_draws_only_front (backgroundColor : JsVal) (this : Sphere.t)
    (st : Store) :
  (forall x1 y1 x2 y2,
     In (Segment x1 y1 x2 y2) (fst (drawSky backgroundColor this st)) ->
     exists ln p1 p2,
       In ln (starLines st)
       /\ heap st !! skyPoint1 ln = Some p1 /\ heap st !! skyPoint2 ln = Some p2
       /\ 0 < SkyPoint.z p1 /\ 0 < SkyPoint.z p2
       /\ x1 = floor (SkyPoint.x p1) /\ y1 = floor (SkyPoint.y p1)
       /\ x2 = floor (SkyPoint.x p2) /\ y2 = floor (SkyPoint.y p2))
  /\ (forall x y radius,
        In (Dot x y radius) (fst (drawSky backgroundColor this st)) ->
        exists r p,
          In r (starPoints st ++ objectPoints st)
          /\ heap st !! r = Some p /\ SkyPoint.z p >= 0
          /\ x = floor (SkyPoint.x p) /\ y = floor (SkyPoint.y p)).
Proof.
  split.
  - intros x1 y1 x2 y2 Hin.
    destruct (drawSky_parts _ _ _ _ Hin)
      as [(?&?&?)|[(?&?)|[(?&?)|[(?&?&?&?)|[H|[H|H]]]]]]; try done.
    + destruct (drawStarLines_only_front _ _ _ H)
        as (ln & p1 & p2 & Hl & H1 & H2 & Hz1 & Hz2 & Heq).
      injection Heq as -> -> -> ->. exists ln, p1, p2. by repeat split.
    + by destruct (drawStarPoints_only_front _ _ _ H) as (? & ? & _ & _ & _ & ?).
    + clear Hin. induction (objectPoints st) as [|r objs IH]; simpl in H; [done|].
      destruct (heap st !! r) as [p|]; [|done].
      destruct (Rge_b (SkyPoint.z p) 0); [|by apply IH].
      destruct (getProp (SkyPoint.getData p) "color"); [|done].
      destruct (getProp (SkyPoint.getData p) "radius"); [|done].
      simpl in H. destruct H as [H|[H|H]]; [done|done|by apply IH].
  - intros x y radius Hin.
    destruct (drawSky_parts _ _ _ _ Hin)
      as [(?&?&?)|[(?&?)|[(?&?)|[(?&?&?&?)|[H|[H|H]]]]]]; try done.
    + by destruct (drawStarLines_only_front _ _ _ H)
        as (? & ? & ? & _ & _ & _ & _ & _ & ?).
    + destruct (drawStarPoints_only_front _ _ _ H) as (r & p & Hr & Hp & Hz & Heq).
      injection Heq as -> -> ->. exists r, p. rewrite in_app_iff. by repeat split; auto.
    + destruct (drawObjectPoints_only_front _ _ _ _ _ H)
        as (r & p & Hr & Hp & Hz & Hx & Hy).
      exists r, p. rewrite in_app_iff. by repeat split; auto.
Qed.

Lemma drawSky_draws_only_front_witness :
  let this := initSphere (Options.mk None None None false) in
  let st := mkStore [SkyPoint.mk 1 2 3 None] [] [0%nat] [] in
  In (Dot (floor 1) (floor 2) (JNum 2)) (fst (drawSky JUndefined this st))
  /\ exists r p,
       In r (starPoints st ++ objectPoints st)
       /\ heap st !! r = Some p /\ SkyPoint.z p >= 0
       /\ floor 1 = floor (SkyPoint.x p) /\ floor 2 = floor (SkyPoint.y p).
Proof.
  intros this st.
  assert (Hin : In (Dot (floor 1) (floor 2) (JNum 2))
                   (fst (drawSky JUndefined this st))).
  { unfold drawSky. simpl. rewrite Rge_b_true by lra. simpl. auto 10. }
  exact (conj Hin (proj2 (drawSky_draws_only_front JUndefined this st) _ _ _ Hin)).
Defined.






(** ** The frame scheduler *)

Lemma stepLoop_eq (instances : list (JsVal * Sphere.t)) (st : Store)
    (renew : bool) :
  wfStore st ->
  stepLoop instances st renew
  = if existsb (fun i => Sphere.isMoving (snd i)) instances
    then match snd (drawObjectPoints (heap st) (objectPoints st)) with
         | Normal _ => Normal true
         | TypeError => TypeError
         end
    else Normal renew.
Proof.
  intros Hwf. revert renew.
  induction instances as [|[bg inst] instances IH]; intros renew; simpl; [done|].
  destruct (Sphere.isMoving inst); simpl; [|apply IH].
  rewrite drawSky_completion by done.
  destruct (snd (drawObjectPoints (heap st) (objectPoints st))) eqn:Hd; [|done].
  rewrite IH. by destruct (existsb _ instances).
Qed.

(** X22: on a well formed store, [step] ends without asking for a frame
    when no instance is moving; when an instance is moving it asks for the
    next frame, unless some custom object facing the viewer has no [data]:
    then the [drawSky] of the first moving instance throws, and no frame is
    asked for. *)
Theorem step_renews_iff_moving (instances : list (JsVal * Sphere.t))
    (st : Store) :
  wfStore st ->
  let payloadless :=
    exists r p, In r (objectPoints st) /\ heap st !! r = Some p
                /\ SkyPoint.z p >= 0
                /\ (SkyPoint.getData p = JUndefined
                    \/ SkyPoint.getData p = JNull) in
  (Forall (fun i => Sphere.isMoving (snd i) = false) instances ->
   step instances st = Normal false)
  /\ (Exists (fun i => Sphere.isMoving (snd i) = true) instances ->
      ~ payloadless -> step instances st = Normal true)
  /\ (Exists (fun i => Sphere.isMoving (snd i) = true) instances ->
      payloadless -> step instances st = TypeError).
Proof.
  intros Hwf payloadless. unfold step. rewrite stepLoop_eq by done.
  assert (Hlive : forall r, In r (objectPoints st) -> is_Some (heap st !! r)).
  { intros r Hin. apply tracked_live; [done|]. by apply objectPoint_tracked. }
  assert (Hiff := drawObjectPoints_throws_iff (heap st) (objectPoints st) Hlive).
  fold payloadless in Hiff.
  split; [|split].
  - intros Hall. replace (existsb _ instances) with false; [done|].
    symmetry. apply not_true_is_false. intros He.
    apply existsb_exists in He. destruct He as (i & Hin & Hi).
    rewrite Forall_forall in Hall. apply list_elem_of_In in Hin.
    rewrite (Hall i Hin) in Hi. done.
  - intros Hex Hno. replace (existsb _ instances) with true.
    + destruct (snd (drawObjectPoints _ _)) eqn:Hd; [done|].
      exfalso. apply Hno. by apply Hiff.
    + symmetry. apply existsb_exists. apply Exists_exists in Hex.
      destruct Hex as (i & Hin & Hi). exists i. by rewrite <- list_elem_of_In.
  - intros Hex Hyes. replace (existsb _ instances) with true.
    + by rewrite (proj2 Hiff Hyes).
    + symmetry. apply existsb_exists. apply Exists_exists in Hex.
      destruct Hex as (i & Hin & Hi). exists i. by rewrite <- list_elem_of_In.
Qed.

Lemma step_renews_iff_moving_witness :
  let this := Sphere.setIsMoving true (initSphere (Options.mk None None None false)) in
  wfStore oneObjectStore
  /\ Exists (fun i => Sphere.isMoving (snd i) = true) [(JUndefined, this)]
  /\ (exists r p, In r (objectPoints oneObjectStore)
                  /\ heap oneObjectStore !! r = Some p /\ SkyPoint.z p >= 0
                  /\ (SkyPoint.getData p = JUndefined
                      \/ SkyPoint.getData p = JNull))
  /\ step [(JUndefined, this)] oneObjectStore = TypeError.
Proof.
  intros this.
  assert (Hwf : wfStore oneObjectStore) by wf_example.
  assert (Hex : Exists (fun i => Sphere.isMoving (snd i) = true) [(JUndefined, this)]).
  { by constructor. }
  assert (Hp : exists r p, In r (objectPoints oneObjectStore)
                  /\ heap oneObjectStore !! r = Some p /\ SkyPoint.z p >= 0
                  /\ (SkyPoint.getData p = JUndefined
                      \/ SkyPoint.getData p = JNull)).
  { exists 0%nat, (SkyPoint.mk 1 2 3 None). simpl. repeat split; auto. lra. }
  exact (conj Hwf (conj Hex (conj Hp
    (proj2 (proj2 (step_renews_iff_moving [(JUndefined, this)] oneObjectStore Hwf))
       Hex Hp)))).
Defined.

(** ** Where the centering animation leaves the target *)

Lemma turn_stops_left_front (u v : R) :
  u < 0 ->
  exists k, (k <= 63)%nat /\ k <> 0%nat
    /\ (forall j, (j < k)%nat -> fst (Nat.iter j (turn (5 / 100)) (u, v)) < 0)
    /\ 0 <= fst (Nat.iter k (turn (5 / 100)) (u, v))
    /\ 0 < snd (Nat.iter k (turn (5 / 100)) (u, v)).
Proof.
  intros Hu.
  destruct (turn_stops_left u v Hu) as (k & Hk & Hlt & Hge & _).
  exists k. destruct k as [|k]; [simpl in Hge; lra|].
  split; [done|]. split; [done|]. split; [done|]. split; [done|].
  assert (Hprev := Hlt k (Nat.lt_succ_diag_r k)).
  change (Nat.iter (S k) (turn (5 / 100)) (u, v))
    with (turn (5 / 100) (Nat.iter k (turn (5 / 100)) (u, v))) in *.
  destruct (Nat.iter k (turn (5 / 100)) (u, v)) as [a b].
  unfold turn in *. cbn [fst snd] in *.
  assert (Hs := sin_step_pos). assert (Hc := cos_step_pos).
  set (s := sin (5 / 100)) in *. set (c := cos (5 / 100)) in *.
  assert (H1 : a * c < 0) by nra.
  assert (H2 : 0 < b * s) by lra.
  assert (H3 : 0 < b) by nra.
  nra.
Qed.

(** The loop of one phase, with the side the point ends on. *)
Lemma turn_stops_front (u v : R) :
  let d := direction u in
  exists k, (k <= 63)%nat
    /\ (forall j, (j < k)%nat ->
          keepMoving d (fst (Nat.iter j (turn d) (u, v))) = true)
    /\ keepMoving d (fst (Nat.iter k (turn d) (u, v))) = false
    /\ (k = 0%nat <-> u = 0)
    /\ (k <> 0%nat -> 0 < snd (Nat.iter k (turn d) (u, v))).
Proof.
  unfold direction.
  destruct (Rlt_dec u 0) as [Hu|Hu];
    [rewrite (Rlt_b_true _ _ Hu) | rewrite (Rlt_b_false _ _ Hu)]; cbv zeta.
  - destruct (turn_stops_left_front u v Hu) as (k & Hk & Hk0 & Hlt & Hge & Hz).
    exists k. split; [done|]. split; [|split; [|split]].
    + intros j Hj. rewrite keepMoving_pos. apply Rlt_b_true. by apply Hlt.
    + rewrite keepMoving_pos. apply Rlt_b_false. lra.
    + split; [done|lra].
    + done.
  - destruct (Req_dec_T u 0) as [->|Hne].
    { exists 0%nat. split; [lia|]. split; [intros j Hj; lia|].
      split; [|split; [done|done]].
      simpl. rewrite keepMoving_neg. apply Rlt_b_false. lra. }
    assert (Hm : forall j, Nat.iter j (turn (- (5 / 100))) (u, v)
                           = (- fst (Nat.iter j (turn (5 / 100)) (- u, v)),
                              snd (Nat.iter j (turn (5 / 100)) (- u, v)))).
    { intros j. rewrite !turn_iter. cbn [fst snd].
      replace (INR j * - (5 / 100)) with (- (INR j * (5 / 100))) by ring.
      rewrite cos_neg, sin_neg. f_equal; ring. }
    destruct (turn_stops_left_front (- u) v) as (k & Hk & Hk0 & Hlt & Hge & Hz);
      [lra|].
    exists k. split; [done|]. split; [|split; [|split]].
    + intros j Hj. rewrite keepMoving_neg, Hm. cbn [fst]. apply Rlt_b_true.
      specialize (Hlt j Hj). lra.
    + rewrite keepMoving_neg, Hm. cbn [fst]. apply Rlt_b_false. lra.
    + split; [done|by intros ->].
    + intros _. by rewrite Hm.
Qed.

(** The whole run, for step counts at which the two tests first fail. *)
Lemma centering_run (this : Sphere.t) (st : Store) (r : ref) (pt : SkyPoint.t)
    (kx ky : nat) :
  let cX := Sphere.containerWidth this / 2 in
  let cY := Sphere.containerHeight this / 2 in
  let c := mkCentering r cX cY (direction (SkyPoint.x pt - cX))
                       (direction (- SkyPoint.y pt + cY)) in
  let qA := Nat.iter kx (rotatePoint cX cY (dx c) 0) pt in
  let qB := Nat.iter ky (rotatePoint cX cY 0 (- dy c)) qA in
  heap st !! r = Some pt ->
  visits st r = 1%nat ->
  (forall j, (j < kx)%nat ->
     keepMoving (dx c)
       (SkyPoint.x (Nat.iter j (rotatePoint cX cY (dx c) 0) pt) - cX) = true) ->
  keepMoving (dx c) (SkyPoint.x qA - cX) = false ->
  (forall j, (j < ky)%nat ->
     keepMoving (dy c)
       (- SkyPoint.y (Nat.iter j (rotatePoint cX cY 0 (- dy c)) qA) + cY) = true) ->
  keepMoving (dy c) (- SkyPoint.y qB + cY) = false ->
  exists a0 stB,
    centerSkyPoint this st r = Some (c, a0)
    /\ Nat.iter (kx + ky) (tick c) a0
       = mkAnim (Sphere.setIsMoving false (Sphere.setIsMoving true this)) stB None
    /\ heap stB !! r = Some qB
    /\ (kx = 0%nat -> ky = 0%nat -> stB = st).
Proof.
  intros cX cY c qA qB Hpt Hv HkeepX HstopX HkeepY HstopY.
  set (this' := Sphere.setIsMoving true this).
  assert (HcX : centerX c = Sphere.containerWidth this' / 2) by done.
  assert (HcY : centerY c = Sphere.containerHeight this' / 2) by done.
  destruct (phaseX_steps c this' pt kx HcX HcY st Hpt Hv HkeepX)
    as (stA & HrunA & HlookA & HvA).
  destruct (phaseY_steps c this' qA ky HcX HcY stA HlookA HvA HkeepY)
    as (stB & HrunB & HlookB & HvB).
  exists (moveXUntilCenter c (mkAnim this' st None)), stB.
  split.
  { unfold centerSkyPoint. rewrite Hpt. cbv [mbind option_bind].
    fold cX cY. by rewrite direction_x, direction_y. }
  split; [|split; [done|]].
  - rewrite Nat.add_comm, Nat.iter_add.
    rewrite (moveXUntilCenter_pending c this' st None (Some CenteringXTimeout) pt Hpt).
    change (moveXUntilCenter c (mkAnim this' st (Some CenteringXTimeout)))
      with (tick c (mkAnim this' st (Some CenteringXTimeout))).
    rewrite <- Nat.iter_succ_r.
    change (Nat.iter (S kx) (tick c) (mkAnim this' st (Some CenteringXTimeout)))
      with (tick c (Nat.iter kx (tick c) (mkAnim this' st (Some CenteringXTimeout)))).
    rewrite HrunA. unfold tick at 2. cbn [pending].
    rewrite (moveXUntilCenter_done c _ qA) by done.
    rewrite (moveYUntilCenter_pending c this' stA _ (Some CenteringYTimeout) qA HlookA).
    change (moveYUntilCenter c (mkAnim this' stA (Some CenteringYTimeout)))
      with (tick c (mkAnim this' stA (Some CenteringYTimeout))).
    rewrite <- Nat.iter_succ_r.
    change (Nat.iter (S ky) (tick c) (mkAnim this' stA (Some CenteringYTimeout)))
      with (tick c (Nat.iter ky (tick c) (mkAnim this' stA (Some CenteringYTimeout)))).
    rewrite HrunB. unfold tick. cbn [pending].
    by rewrite (moveYUntilCenter_done c _ qB).
  - intros -> ->. simpl in HrunA, HrunB.
    injection HrunA as <-. by injection HrunB as <-.
Qed.

(** X23: for a target the collections of the instance hold (once), the
    centering animation ends, after at most 126 timer firings, with the
    target on the side of the viewer ([z > 0]), even when it started behind
    the sphere; the one exception is a target whose [x] and [y] already are
    those of the center: then nothing moves at all. *)
Theorem centerSkyPoint_faces_viewer (this : Sphere.t) (st : Store) (r : ref)
    (pt : SkyPoint.t) :
  heap st !! r = Some pt ->
  visits st r = 1%nat ->
  let cX := Sphere.containerWidth this / 2 in
  let cY := Sphere.containerHeight this / 2 in
  exists (c : Centering) (a0 : Anim) (n : nat) (pt' : SkyPoint.t),
    centerSkyPoint this st r = Some (c, a0)
    /\ (n <= 126)%nat
    /\ pending (Nat.iter n (tick c) a0) = None
    /\ heap (store (Nat.iter n (tick c) a0)) !! r = Some pt'
    /\ (SkyPoint.x pt = cX -> SkyPoint.y pt = cY ->
        n = 0%nat /\ store a0 = st)
    /\ (SkyPoint.x pt <> cX \/ SkyPoint.y pt <> cY -> 0 < SkyPoint.z pt').
Proof.
  intros Hpt Hv cX cY.
  set (c := mkCentering r cX cY (direction (SkyPoint.x pt - cX))
                        (direction (- SkyPoint.y pt + cY))).
  destruct (turn_stops_front (SkyPoint.x pt - cX) (SkyPoint.z pt))
    as (kx & Hkx & HkeepX & HstopX & HzeroX & HfrontX).
  set (qA := Nat.iter kx (rotatePoint cX cY (dx c) 0) pt).
  assert (HqA : qA = SkyPoint.mk
            (fst (Nat.iter kx (turn (dx c)) (SkyPoint.x pt - cX, SkyPoint.z pt)) + cX)
            (SkyPoint.y pt)
            (snd (Nat.iter kx (turn (dx c)) (SkyPoint.x pt - cX, SkyPoint.z pt)))
            (SkyPoint.data pt)).
  { unfold qA. apply iter_rotatePoint_X. }
  assert (HyA : SkyPoint.y qA = SkyPoint.y pt) by (by rewrite HqA).
  destruct (turn_stops_front (- SkyPoint.y pt + cY) (SkyPoint.z qA))
    as (ky & Hky & HkeepY & HstopY & HzeroY & HfrontY).
  set (qB := Nat.iter ky (rotatePoint cX cY 0 (- dy c)) qA).
  assert (HqB : qB = SkyPoint.mk
            (SkyPoint.x qA)
            (cY - fst (Nat.iter ky (turn (dy c)) (- SkyPoint.y pt + cY, SkyPoint.z qA)))
            (snd (Nat.iter ky (turn (dy c)) (- SkyPoint.y pt + cY, SkyPoint.z qA)))
            (SkyPoint.data qA)).
  { unfold qB. rewrite iter_rotatePoint_Y. by rewrite HyA. }
  destruct (centering_run this st r pt kx ky Hpt Hv) as (a0 & stB & Hc & Hrun & HlookB & Hstill).
  { intros j Hj. fold cX cY c. rewrite iter_rotatePoint_X. cbn [SkyPoint.x].
    match goal with |- keepMoving _ ?e = _ =>
      replace e with (fst (Nat.iter j (turn (dx c))
                             (SkyPoint.x pt - cX, SkyPoint.z pt))) by ring end.
    by apply HkeepX. }
  { fold cX cY c qA. rewrite HqA. cbn [SkyPoint.x].
    match goal with |- keepMoving _ ?e = _ =>
      replace e with (fst (Nat.iter kx (turn (dx c))
                             (SkyPoint.x pt - cX, SkyPoint.z pt))) by ring end.
    exact HstopX. }
  { intros j Hj. fold cX cY c qA. rewrite iter_rotatePoint_Y, HyA. cbn [SkyPoint.y].
    match goal with |- keepMoving _ ?e = _ =>
      replace e with (fst (Nat.iter j (turn (dy c))
                             (- SkyPoint.y pt + cY, SkyPoint.z qA))) by ring end.
    by apply HkeepY. }
  { fold cX cY c qA qB. rewrite HqB. cbn [SkyPoint.y].
    match goal with |- keepMoving _ ?e = _ =>
      replace e with (fst (Nat.iter ky (turn (dy c))
                             (- SkyPoint.y pt + cY, SkyPoint.z qA))) by ring end.
    exact HstopY. }
  fold cX cY c qA qB in Hc, Hrun, HlookB.
  exists c, a0, (kx + ky)%nat, qB.
  split; [done|]. split; [lia|]. rewrite Hrun. cbn [pending store].
  split; [done|]. split; [done|]. split.
  - intros Hx Hy.
    assert (Hkx0 : kx = 0%nat) by (apply HzeroX; lra).
    assert (Hky0 : ky = 0%nat) by (apply HzeroY; lra).
    split; [lia|]. subst kx ky. simpl in Hrun. rewrite Hrun. cbn [store].
    by apply Hstill.
  - intros Hoff. destruct (Nat.eq_dec ky 0%nat) as [Hky0|Hky0].
    + assert (Hy : SkyPoint.y pt = cY).
      { apply HzeroY in Hky0. lra. }
      assert (Hkx0 : kx <> 0%nat).
      { intros H0. apply HzeroX in H0. destruct Hoff; lra. }
      unfold qB. rewrite Hky0. simpl. rewrite HqA. cbn [SkyPoint.z].
      by apply HfrontX.
    + rewrite HqB. cbn [SkyPoint.z]. by apply HfrontY.
Qed.

Lemma centerSkyPoint_faces_viewer_witness :
  let this := initSphere (Options.mk None None None false) in
  let st := mkStore [SkyPoint.mk 0 200 (- 5) None] [] [] [0%nat] in
  heap st !! 0%nat = Some (SkyPoint.mk 0 200 (- 5) None)
  /\ visits st 0%nat = 1%nat
  /\ exists (c : Centering) (a0 : Anim) (n : nat) (pt' : SkyPoint.t),
       centerSkyPoint this st 0%nat = Some (c, a0)
       /\ pending (Nat.iter n (tick c) a0) = None
       /\ heap (store (Nat.iter n (tick c) a0)) !! 0%nat = Some pt'
       /\ 0 < SkyPoint.z pt'.
Proof.
  intros this st.
  assert (Hp : heap st !! 0%nat = Some (SkyPoint.mk 0 200 (- 5) None)) by reflexivity.
  assert (Hv : visits st 0%nat = 1%nat) by reflexivity.
  destruct (centerSkyPoint_faces_viewer this st 0%nat _ Hp Hv)
    as (c & a0 & n & pt' & Hc & _ & Hpend & Hlook & _ & Hfront).
  assert (Hoff : 0 <> Sphere.containerWidth this / 2 \/
                 200 <> Sphere.containerHeight this / 2).
  { left. unfold this, initSphere; simpl. lra. }
  split; [exact Hp|]. split; [exact Hv|].
  exists c, a0, n, pt'. exact (conj Hc (conj Hpend (conj Hlook (Hfront Hoff)))).
Defined.
